(** * Duplicate-file detection: a shallow embedding of [find_duplicates.py]

    The development follows the script top to bottom:
    - [MD5]: the digest computed by [hashlib.md5] (RFC 1321);
    - [Hashlib]: the hash object ([update], [hexdigest]);
    - [OrderedDict]: Python's insertion-ordered [dict] / [defaultdict(list)];
    - [FS]: the part of the file system the script observes
      ([os.walk], [os.path.join], [os.path.isfile], [os.path.getsize], [open]);
    - [Script]: [hash_file], [find_duplicates] and [main];
    - the theorems about them. *)

From Stdlib Require Import ZArith Strings.Byte.
From Stdlib Require Import Strings.String Strings.Ascii.
From stdpp Require Import base list strings pretty gmap.
From Equations Require Import Equations.

Local Open Scope Z_scope.

(** ** MD5 (RFC 1321), the function behind [hashlib.md5] *)
Module MD5.

Definition mask32 : Z := 0xFFFFFFFF.
Definition wrap32 (x : Z) : Z := x mod 2 ^ 32.

Definition rotl32 (x : Z) (c : Z) : Z :=
  wrap32 (Z.lor (Z.shiftl x c) (Z.shiftr x (32 - c))).

Definition not32 (x : Z) : Z := Z.lxor x mask32.

(** Per-round shift amounts. *)
Definition S_table : list Z :=
  [7; 12; 17; 22; 7; 12; 17; 22; 7; 12; 17; 22; 7; 12; 17; 22;
   5;  9; 14; 20; 5;  9; 14; 20; 5;  9; 14; 20; 5;  9; 14; 20;
   4; 11; 16; 23; 4; 11; 16; 23; 4; 11; 16; 23; 4; 11; 16; 23;
   6; 10; 15; 21; 6; 10; 15; 21; 6; 10; 15; 21; 6; 10; 15; 21].

(** [K_table[i] = floor (2^32 * |sin (i + 1)|)]. *)
Definition K_table : list Z :=
  [0xd76aa478; 0xe8c7b756; 0x242070db; 0xc1bdceee;
   0xf57c0faf; 0x4787c62a; 0xa8304613; 0xfd469501;
   0x698098d8; 0x8b44f7af; 0xffff5bb1; 0x895cd7be;
   0x6b901122; 0xfd987193; 0xa679438e; 0x49b40821;
   0xf61e2562; 0xc040b340; 0x265e5a51; 0xe9b6c7aa;
   0xd62f105d; 0x02441453; 0xd8a1e681; 0xe7d3fbc8;
   0x21e1cde6; 0xc33707d6; 0xf4d50d87; 0x455a14ed;
   0xa9e3e905; 0xfcefa3f8; 0x676f02d9; 0x8d2a4c8a;
   0xfffa3942; 0x8771f681; 0x6d9d6122; 0xfde5380c;
   0xa4beea44; 0x4bdecfa9; 0xf6bb4b60; 0xbebfbc70;
   0x289b7ec6; 0xeaa127fa; 0xd4ef3085; 0x04881d05;
   0xd9d4d039; 0xe6db99e5; 0x1fa27cf8; 0xc4ac5665;
   0xf4292244; 0x432aff97; 0xab9423a7; 0xfc93a039;
   0x655b59c3; 0x8f0ccc92; 0xffeff47d; 0x85845dd1;
   0x6fa87e4f; 0xfe2ce6e0; 0xa3014314; 0x4e0811a1;
   0xf7537e82; 0xbd3af235; 0x2ad7d2bb; 0xeb86d391].

(** The four chaining words A, B, C, D. *)
Record words := Words { wA : Z; wB : Z; wC : Z; wD : Z }.

Definition init : words :=
  Words 0x67452301 0xefcdab89 0x98badcfe 0x10325476.

(** Every chaining word is a 32-bit number. *)
Definition words_in_range (w : words) : Prop :=
  (0 <= wA w < 2 ^ 32) /\ (0 <= wB w < 2 ^ 32) /\
  (0 <= wC w < 2 ^ 32) /\ (0 <= wD w < 2 ^ 32).

Definition byte_val (b : byte) : Z := Z.of_N (Byte.to_N b).

(** Little-endian 32-bit word from four bytes. *)
Definition le_word (bs : list Z) : Z :=
  fold_right (fun b acc => b + 256 * acc) 0 bs.

Fixpoint le_words (n : nat) (bs : list Z) : list Z :=
  match n with
  | O => []
  | S n' => le_word (take 4 bs) :: le_words n' (drop 4 bs)
  end.

(** The 64-bit little-endian encoding of the message length in bits. *)
Fixpoint le_bytes (n : nat) (x : Z) : list Z :=
  match n with
  | O => []
  | S n' => x mod 256 :: le_bytes n' (x / 256)
  end.

(** Padding: a single 1 bit, zeros up to 56 mod 64, then the bit length. *)
Definition pad (msg : list Z) : list Z :=
  let len := Z.of_nat (length msg) in
  let zeros := Z.to_nat ((55 - len) mod 64) in
  msg ++ [0x80] ++ replicate zeros 0 ++ le_bytes 8 ((8 * len) mod 2 ^ 64).

(** One of the 64 operations on block [M]. *)
Definition step (M : list Z) (w : words) (i : Z) : words :=
  let '(Words A B C D) := w in
  let '(F, g) :=
    if i <? 16 then (Z.lor (Z.land B C) (Z.land (not32 B) D), i)
    else if i <? 32 then (Z.lor (Z.land D B) (Z.land (not32 D) C), (5 * i + 1) mod 16)
    else if i <? 48 then (Z.lxor (Z.lxor B C) D, (3 * i + 5) mod 16)
    else (Z.lxor C (Z.lor B (not32 D)), (7 * i) mod 16) in
  let F' := wrap32 (F + A + nth (Z.to_nat i) K_table 0 + nth (Z.to_nat g) M 0) in
  Words D (wrap32 (B + rotl32 F' (nth (Z.to_nat i) S_table 0))) B C.

Definition rounds : list Z := Eval cbv in map Z.of_nat (seq 0 64).

Definition compress (w : words) (block : list Z) : words :=
  let M := le_words 16 block in
  let w' := fold_left (step M) rounds w in
  Words (wrap32 (wA w + wA w')) (wrap32 (wB w + wB w'))
        (wrap32 (wC w + wC w')) (wrap32 (wD w + wD w')).

(** Fold [compress] over consecutive 64-byte blocks. *)
Fixpoint blocks (n : nat) (w : words) (bs : list Z) : words :=
  match n with
  | O => w
  | S n' => blocks n' (compress w (take 64 bs)) (drop 64 bs)
  end.

Definition digest_words (msg : list byte) : words :=
  let p := pad (map byte_val msg) in
  blocks (length p / 64)%nat init p.

(** The 128-bit digest as a number: A is the low-order word. *)
Definition digest (msg : list byte) : Z :=
  let w := digest_words msg in
  wA w + 2 ^ 32 * (wB w + 2 ^ 32 * (wC w + 2 ^ 32 * wD w)).

Definition hex_digit (d : Z) : ascii :=
  nth (Z.to_nat d)
      ["0"; "1"; "2"; "3"; "4"; "5"; "6"; "7";
       "8"; "9"; "a"; "b"; "c"; "d"; "e"; "f"]%char "0"%char.

Fixpoint hex_bytes (bs : list Z) : string :=
  match bs with
  | [] => EmptyString
  | b :: bs' => String (hex_digit (b / 16)) (String (hex_digit (b mod 16)) (hex_bytes bs'))
  end.

(** The 16 digest bytes, as [hexdigest()] prints them. *)
Definition hexdigest (msg : list byte) : string :=
  hex_bytes (le_bytes 16 (digest msg)).

End MD5.

(** ** [hashlib]: the hash object *)
Module Hashlib.

(** A hash object remembers its algorithm and the bytes fed to it so far:
    [m.update(a); m.update(b)] is [m.update(a + b)], and [hexdigest()] is
    the digest of everything fed. *)
Record hasher := Hasher { algorithm : list byte -> string; fed : list byte }.

Definition new (algo : list byte -> string) : hasher := Hasher algo [].
Definition md5 : hasher := new MD5.hexdigest.

Definition update (h : hasher) (buf : list byte) : hasher :=
  Hasher (algorithm h) (fed h ++ buf).

Definition hexdigest (h : hasher) : string := algorithm h (fed h).

End Hashlib.

(** ** Python's [dict], which iterates in insertion order *)
Module OrderedDict.
(** A [defaultdict(list)]: keys in insertion order, each with its list. *)
Abbreviation dict K V := (list (K * list V)).

Section dict.
Context {K V : Type} `{EqDecision K}.

(** [d[k].append(v)]: a missing key is inserted at the end with [[v]]. *)
Fixpoint append_at (k : K) (v : V) (d : dict K V) : dict K V :=
  match d with
  | [] => [(k, [v])]
  | (k', vs) :: d' =>
      if decide (k = k') then (k', vs ++ [v]) :: d'
      else (k', vs) :: append_at k v d'
  end.

Definition keys (d : dict K V) : list K := d.*1.

(** [{k: vs for k, vs in d.items() if len(vs) > 1}] *)
Definition more_than_one (d : dict K V) : dict K V :=
  filter (fun kv => bool_decide (1 < length kv.2)%nat) d.
End dict.
End OrderedDict.

(** ** The file system, as far as the script observes it *)
Module FS.

(** The exceptions the script can meet. Only [OSError] is caught by its
    [except OSError] clauses. *)
Inductive exn :=
| OSError (strerror : string)
| ValueError (msg : string)
| OverflowError (msg : string)
| MemoryError.

Definition str (e : exn) : string :=
  match e with
  | OSError m | ValueError m | OverflowError m => m
  | MemoryError => EmptyString
  end.

(** A regular file: the bytes a read returns, the size [stat] reports
    ([st_size], which need not be the number of bytes: files under [/proc]
    report 0), and the [OSError] that [stat] or [open] on it raise, if any. *)
Record file := File {
  content : list byte;
  st_size : N;
  stat_fault : option string;
  open_fault : option string
}.

Inductive node :=
| Reg (f : file)
| Dir (entries : list (string * node))
| Broken.  (* a dangling symbolic link, an entry that may not be stat'ed:
              listed, but [stat] fails and [isfile] is [False] *)

(** What a run depends on: one tree, mounted at path [mount] (a path
    denotes an object by its exact spelling; nothing else exists);
    [cwd_fault], the [OSError] that opening a file for writing in the
    working directory raises, if any; and [spare_memory], the bytes a read
    may allocate beyond the script's default block. *)
Record filesystem := MkFilesystem {
  mount : string;
  tree : node;
  cwd_fault : option string;
  spare_memory : N
}.

(** A tree in a writable working directory, with memory to spare. *)
Definition Filesystem (mount : string) (tree : node) : filesystem :=
  MkFilesystem mount tree None (2 ^ 63).

Definition starts_with_sep (s : string) : bool :=
  match s with String "/" _ => true | _ => false end.

Fixpoint ends_with_sep (s : string) : bool :=
  match s with
  | EmptyString => false
  | String c EmptyString => Ascii.eqb c "/"
  | String _ s' => ends_with_sep s'
  end.

(** [os.path.join(a, b)] *)
Definition join (a b : string) : string :=
  if starts_with_sep b then b
  else if bool_decide (a = EmptyString) || ends_with_sep a then a +:+ b
  else a +:+ "/" +:+ b.

(** Every object of the tree with its path, parents first. *)
Fixpoint objects (path : string) (n : node) : list (string * node) :=
  (path, n) ::
  match n with
  | Dir es =>
      (fix below (es : list (string * node)) : list (string * node) :=
         match es with
         | [] => []
         | (name, c) :: es' => objects (join path name) c ++ below es'
         end) es
  | _ => []
  end.

Fixpoint assoc (p : string) (l : list (string * node)) : option node :=
  match l with
  | [] => None
  | (q, n) :: l' => if decide (p = q) then Some n else assoc p l'
  end.

Definition resolve (fs : filesystem) (p : string) : option node :=
  assoc p (objects (mount fs) (tree fs)).

Definition is_dir (n : node) : bool :=
  match n with Dir _ => true | _ => false end.

Definition dirnames (es : list (string * node)) : list string :=
  (filter (fun e => is_dir e.2 = true) es).*1.
Definition filenames (es : list (string * node)) : list string :=
  (filter (fun e => is_dir e.2 = false) es).*1.

(** [os.walk(top)], top-down: a directory yields
    [(dirpath, dirnames, filenames)] and is followed by the walks of its
    sub-directories; anything that cannot be listed yields nothing
    ([onerror] is [None]). *)
Fixpoint walk (top : string) (n : node) : list (string * list string * list string) :=
  match n with
  | Dir es =>
      (top, dirnames es, filenames es) ::
      (fix subdirs (es : list (string * node)) :=
         match es with
         | [] => []
         | (name, c) :: es' =>
             (if is_dir c then walk (join top name) c else []) ++ subdirs es'
         end) es
  | _ => []
  end.

Definition os_walk (fs : filesystem) (top : string)
  : list (string * list string * list string) :=
  match resolve fs top with
  | Some n => walk top n
  | None => []
  end.

Definition isdir (fs : filesystem) (p : string) : bool :=
  match resolve fs p with Some (Dir _) => true | _ => false end.

Definition isfile (fs : filesystem) (p : string) : bool :=
  match resolve fs p with Some (Reg _) => true | _ => false end.

(** [os.path.getsize]: [os.stat(p).st_size]. The script asks only for
    regular files (behind [isfile]). *)
Definition getsize (fs : filesystem) (p : string) : exn + Z :=
  match resolve fs p with
  | Some (Reg f) =>
      match stat_fault f with
      | Some e => inl (OSError e)
      | None => inr (Z.of_N (st_size f))
      end
  | _ => inl (OSError "No such file or directory")
  end.

(** [open(p, 'rb')]: the bytes still to be read. *)
Definition open_rb (fs : filesystem) (p : string) : exn + list byte :=
  match resolve fs p with
  | Some (Reg f) =>
      match open_fault f with
      | Some e => inl (OSError e)
      | None => inr (content f)
      end
  | Some (Dir _) => inl (OSError "Is a directory")
  | _ => inl (OSError "No such file or directory")
  end.

(** The largest length of a [bytes] object: [sys.maxsize] less its header. *)
Definition max_bytes : Z := 2 ^ 63 - 34.

(** The largest size a read can allocate in this run. *)
Definition read_limit (fs : filesystem) : Z :=
  Z.min max_bytes (65536 + Z.of_N (spare_memory fs)).

(** [f.read(size)] on a buffered binary file: [-1] reads everything, a
    smaller size is refused; otherwise a buffer of [size] bytes is
    allocated, which fails when it is too large for a [bytes] object or for
    memory, and up to [size] bytes are returned. The result is the bytes
    read and the rest of the file. *)
Definition read (fs : filesystem) (f : list byte) (size : Z)
  : exn + list byte * list byte :=
  if size <? -1 then inl (ValueError "read length must be non-negative or -1")
  else if size =? -1 then
    if Z.of_nat (length f) <=? read_limit fs then inr (f, []) else inl MemoryError
  else if 2 ^ 63 <=? size then
    inl (OverflowError "cannot fit 'int' into an index-sized integer")
  else if max_bytes <? size then inl (OverflowError "byte string is too large")
  else if read_limit fs <? size then inl MemoryError
  else inr (take (Z.to_nat size) f, drop (Z.to_nat size) f).

(** [open(name, 'w')] in the working directory. *)
Definition open_w (fs : filesystem) (name : string) : exn + unit :=
  match cwd_fault fs with
  | Some e => inl (OSError e)
  | None => inr tt
  end.

End FS.

(** ** Effects: exceptions, the console, files written *)
Module Eff.
Import FS.

(** What a run leaves behind. [hash_calls] is a trace of the calls of
    [hash_file] (instrumentation, not program state). *)
Record io := IO {
  stdout : list string;
  written : list (string * list string);
  hash_calls : list string
}.

Definition io0 : io := IO [] [] [].

(** A computation raises or returns, and always leaves its effects. *)
Definition M (A : Type) : Type := io -> (exn + A) * io.

Definition ret {A} (a : A) : M A := fun w => (inr a, w).

Definition bind {A B} (m : M A) (k : A -> M B) : M B :=
  fun w => match m w with
           | (inr a, w') => k a w'
           | (inl e, w') => (inl e, w')
           end.

(** An operation of the file system that may raise. *)
Definition lift {A} (r : exn + A) : M A := fun w => (r, w).

(** [try: body  except OSError as e: handler(e)]. Effects of the failed
    body stay; any other exception goes on. *)
Definition try_except {A} (body : M A) (handler : exn -> M A) : M A :=
  fun w => match body w with
           | (inr a, w') => (inr a, w')
           | (inl (OSError m), w') => handler (OSError m) w'
           | (inl e, w') => (inl e, w')
           end.

Definition print (line : string) : M unit :=
  fun w => (inr tt, IO (stdout w ++ [line]) (written w) (hash_calls w)).

(** [with open(name, 'w') as f: f.write(...)]: nothing is written when
    the [open] raises. The writes to a file that was opened are taken to
    succeed (a full disk is not described). *)
Definition write_file (opened : exn + unit) (name : string) (chunks : list string)
  : M unit :=
  fun w => match opened with
           | inl e => (inl e, w)
           | inr _ => (inr tt, IO (stdout w) (written w ++ [(name, chunks)]) (hash_calls w))
           end.

Definition note_hash_call (filepath : string) : M unit :=
  fun w => (inr tt, IO (stdout w) (written w) (hash_calls w ++ [filepath])).

(** [for x in xs: body], threading the locals [s] the body updates. *)
Fixpoint for_each {X S} (xs : list X) (body : X -> S -> M S) (s : S) : M S :=
  match xs with
  | [] => ret s
  | x :: xs' => bind (body x s) (for_each xs' body)
  end.

End Eff.

Declare Scope eff_scope.
Delimit Scope eff_scope with eff.
Notation "x <- m ;; k" := (Eff.bind m (fun x => k))
  (at level 100, m at next level, right associativity) : eff_scope.
Notation "m ;;; k" := (Eff.bind m (fun _ => k))
  (at level 100, right associativity) : eff_scope.

(** ** The script *)
Module Script.
Import FS Eff OrderedDict.
Local Open Scope eff_scope.
Local Open Scope string_scope.

Definition default_block_size : Z := 65536.

(** The [while len(buf) > 0] loop of [hash_file]: [buf] is the chunk just
    read, [f] the rest of the file. *)
Equations? read_loop (fs : filesystem) (block_size : Z) (hasher : Hashlib.hasher)
    (buf : list byte) (f : list byte) : exn + Hashlib.hasher
    by wf (length buf + length f)%nat lt :=
  read_loop fs block_size hasher [] f := inr hasher;
  read_loop fs block_size hasher (b :: buf') f
    with Logic.inspect (FS.read fs f block_size) := {
    | exist _ (inl e) _ => inl e;
    | exist _ (inr (buf, f')) Hread =>
        read_loop fs block_size (Hashlib.update hasher (b :: buf')) buf f' }.
Proof.
  unfold FS.read in Hread.
  repeat match type of Hread with
         | (if ?c then _ else _) = _ => destruct c
         end; try discriminate Hread; injection Hread as <- <-.
  - simpl. lia.
  - rewrite length_take, length_drop. lia.
Qed.

Section with_hash.
(** The constructor of hash objects: [hashlib.md5] in the script. *)
Variable new_hasher : Hashlib.hasher.
Variable fs : filesystem.

Definition hash_file (filepath : string) (block_size : Z) : M string :=
  note_hash_call filepath ;;;
  f <- lift (open_rb fs filepath) ;;
  let hasher := new_hasher in
  chunk <- lift (FS.read fs f block_size) ;;
  let '(buf, f) := chunk in
  hasher <- lift (read_loop fs block_size hasher buf f) ;;
  ret (Hashlib.hexdigest hasher).

Definition warn_access (filepath : string) (e : exn) : string :=
  "Warning: Could not access file " +:+ filepath +:+ " - " +:+ str e.
Definition warn_hash (filepath : string) (e : exn) : string :=
  "Warning: Could not hash file " +:+ filepath +:+ " - " +:+ str e.

(** First pass: group files by size. *)
Definition first_pass (directory : string) : M (dict Z string) :=
  for_each (os_walk fs directory)
    (fun '(dirpath, _, filenames) hashes_by_size =>
       for_each filenames
         (fun filename hashes_by_size =>
            let filepath := join dirpath filename in
            if isfile fs filepath then
              try_except
                (file_size <- lift (getsize fs filepath) ;;
                 ret (append_at file_size filepath hashes_by_size))
                (fun e => print (warn_access filepath e) ;;; ret hashes_by_size)
            else ret hashes_by_size)
         hashes_by_size)
    [].

(** Second pass: hash the files of every size that occurs more than once. *)
Definition second_pass (hashes_by_size : dict Z string) : M (dict string string) :=
  for_each hashes_by_size
    (fun '(file_size, file_paths) duplicates =>
       if bool_decide (1 < length file_paths)%nat then
         for_each file_paths
           (fun filepath duplicates =>
              try_except
                (file_hash <- hash_file filepath default_block_size ;;
                 ret (append_at file_hash filepath duplicates))
                (fun e => print (warn_hash filepath e) ;;; ret duplicates))
           duplicates
       else ret duplicates)
    [].

Definition find_duplicates_with (directory : string) : M (dict string string) :=
  hashes_by_size <- first_pass directory ;;
  duplicates <- second_pass hashes_by_size ;;
  let actual_duplicates := more_than_one duplicates in
  ret actual_duplicates.
End with_hash.

Definition find_duplicates (fs : filesystem) (directory : string)
  : M (dict string string) :=
  find_duplicates_with Hashlib.md5 fs directory.

Definition nl : string := String (ascii_of_nat 10) EmptyString.

Definition target_directory : string :=
  "A:\Drive\Tamannah-07\Tamannah-07\Thumbnails".

Definition report_lines (duplicate_files : dict string string) (bullet_end : string)
  : list string :=
  flat_map (fun '(md5_hash, file_paths) =>
              (nl +:+ "Hash: " +:+ md5_hash +:+ bullet_end)
                :: map (fun path => "  - " +:+ path +:+ bullet_end) file_paths)
           duplicate_files.

Definition main_on (fs : filesystem) (target_directory : string) : M unit :=
  if negb (isdir fs target_directory) then
    print ("Error: Directory '" +:+ target_directory +:+ "' not found.") ;;;
    print "Please update 'target_directory' in the script to your actual album path."
  else
    print ("Scanning '" +:+ target_directory +:+ "' for duplicate files...") ;;;
    duplicate_files <- find_duplicates fs target_directory ;;
    match duplicate_files with
    | [] => print "No duplicate files found based on content."
    | _ =>
        print (nl +:+ "--- Duplicate Files Found ---") ;;;
        for_each (report_lines duplicate_files "") (fun l _ => print l) tt ;;;
        let total_duplicates_found :=
          foldr (fun '(_, file_paths) acc => (length file_paths - 1 + acc)%nat)
                0%nat duplicate_files in
        print (nl +:+ "Total unique duplicate sets: " +:+ pretty (length duplicate_files)) ;;;
        print ("Total individual duplicate files (extra copies): "
                 +:+ pretty total_duplicates_found) ;;;
        let output_filename := "local_duplicates.txt" in
        write_file (open_w fs output_filename) output_filename
          (("--- Duplicate Files Found ---" +:+ nl) :: report_lines duplicate_files nl) ;;;
        print (nl +:+ "List of duplicate files also saved to '" +:+ output_filename +:+ "'")
    end.

Definition main (fs : filesystem) : M unit := main_on fs target_directory.

End Script.

(** ** What the two passes compute, as list comprehensions

    These are the values the loops of [find_duplicates] are proved to
    build (theorem [find_duplicates_run]). *)
Module Pipeline.
Import FS Eff OrderedDict Script.

Section group_by.
Context {K V : Type} `{EqDecision K}.

(** Appending the pairs of [kvs] one by one. *)
Definition group_from (d : dict K V) (kvs : list (K * V)) : dict K V :=
  fold_left (fun d kv => append_at kv.1 kv.2 d) kvs d.
Definition group_by (kvs : list (K * V)) : dict K V := group_from [] kvs.

(** The values filed under [k], in order. *)
Definition values (k : K) (kvs : list (K * V)) : list V :=
  (filter (fun kv => kv.1 = k) kvs).*2.

(** Distinct elements in order of first occurrence. *)
Fixpoint nub (l : list K) : list K :=
  match l with
  | [] => []
  | x :: l' => x :: filter (fun y => y ≠ x) (nub l')
  end.
End group_by.

Section passes.
Variable new_hasher : Hashlib.hasher.
Variable fs : filesystem.

(** The file paths the traversal yields, in order. *)
Definition traversal (directory : string) : list string :=
  flat_map (fun '(dirpath, _, filenames) => map (join dirpath) filenames)
           (os_walk fs directory).

(** A path of the traversal with the size the first pass files it under. *)
Definition sized (filepath : string) : option (Z * string) :=
  if isfile fs filepath then
    match getsize fs filepath with
    | inr file_size => Some (file_size, filepath)
    | inl _ => None
    end
  else None.

Definition access_warning (filepath : string) : option string :=
  if isfile fs filepath then
    match getsize fs filepath with
    | inr _ => None
    | inl e => Some (warn_access filepath e)
    end
  else None.

(** The paths [hash_file] is called on: the buckets of two or more. *)
Definition to_hash (hashes_by_size : dict Z string) : list string :=
  flat_map (fun '(_, file_paths) =>
              if bool_decide (1 < length file_paths)%nat then file_paths else [])
           hashes_by_size.

(** The digest of everything [hash_file] feeds for content [c]. *)
Definition digest_of (c : list byte) : string :=
  Hashlib.algorithm new_hasher (Hashlib.fed new_hasher ++ c).

Definition hashed (filepath : string) : option (string * string) :=
  match open_rb fs filepath with
  | inr c => Some (digest_of c, filepath)
  | inl _ => None
  end.

Definition hash_warning (filepath : string) : option string :=
  match open_rb fs filepath with
  | inr _ => None
  | inl e => Some (warn_hash filepath e)
  end.

Definition size_buckets (directory : string) : dict Z string :=
  group_by (omap sized (traversal directory)).

Definition hash_groups (directory : string) : dict string string :=
  group_by (omap hashed (to_hash (size_buckets directory))).

Definition duplicate_groups (directory : string) : dict string string :=
  more_than_one (hash_groups directory).

Definition warnings (directory : string) : list string :=
  omap access_warning (traversal directory)
    ++ omap hash_warning (to_hash (size_buckets directory)).
End passes.

(** The effects of a run: lines printed and calls of [hash_file]. *)
Definition log (lines : list string) (calls : list string) (w : io) : io :=
  IO (stdout w ++ lines) (written w) (hash_calls w ++ calls).

(** A group as the set of its member paths. *)
Definition as_sets (groups : dict string string) : gset (string * gset string) :=
  list_to_set ((fun g => (g.1, list_to_set g.2)) <$> groups).

End Pipeline.

(** ** The properties stated about a run *)
Module Props.
Import FS Eff OrderedDict Script Pipeline.


(** A group does not hold an empty file together with a non-empty one. *)
Definition empty_apart (fs : filesystem) (g : string * list string) : Prop :=
  ∀ p q s, p ∈ g.2 → q ∈ g.2 → getsize fs p = inr 0 → getsize fs q = inr s → s = 0.


(** No empty file of the traversal has the digest of a non-empty one. *)
Definition empty_digest_apart (new_hasher : Hashlib.hasher)
    (fs : filesystem) (directory : string) : Prop :=
  ∀ p q c,
    p ∈ traversal fs directory → q ∈ traversal fs directory →
    open_rb fs p = inr [] → open_rb fs q = inr c →
    digest_of new_hasher [] = digest_of new_hasher c →
    c = [].

(** Every file of the traversal is as long as [os.path.getsize] says: the
    ordinary case, which files under [/proc] and [/sys] do not meet. *)
Definition sizes_are_lengths (fs : filesystem) (directory : string) : Prop :=
  ∀ p s c,
    p ∈ traversal fs directory →
    getsize fs p = inr s → open_rb fs p = inr c →
    s = Z.of_nat (length c).


(** The two file systems agree on what the script asks about [p]. *)
Definition same_file (fs1 fs2 : filesystem) (p : string) : Prop :=
  isfile fs1 p = isfile fs2 p ∧ getsize fs1 p = getsize fs2 p
  ∧ open_rb fs1 p = open_rb fs2 p.

(** The run raised. *)
Definition raised {A} (r : (exn + A) * io) : Prop := ∃ e, r.1 = inl e.

Local Open Scope string_scope.

(** An ordinary file: its size is the number of its bytes. *)
Definition regular_bytes (c : list byte) : node :=
  Reg (File c (N.of_nat (length c)) None None).
Definition regular (s : string) : node := regular_bytes (list_byte_of_string s).

(** The tree of the scenario: [a.txt] and [b.txt] hold "hello", [c.txt]
    holds "world". *)
Definition scenario_entries : list (string * node) :=
  [("a.txt", regular "hello"); ("b.txt", regular "hello"); ("c.txt", regular "world")].
Definition scenario : filesystem := Filesystem "album" (Dir scenario_entries).

(** The same files, listed in another order. *)
Definition scenario_relisted : filesystem :=
  Filesystem "album"
    (Dir [("c.txt", regular "world"); ("b.txt", regular "hello"); ("a.txt", regular "hello")]).

(** Two empty files and two files of one byte. *)
Definition empties : filesystem :=
  Filesystem "album"
    (Dir [("e1", regular ""); ("e2", regular ""); ("x1", regular "x"); ("x2", regular "x")]).


(** A hash object whose digest is the same for every content. *)
Definition constant_hasher : Hashlib.hasher := Hashlib.new (fun _ => "0").

(** Two pairs of files, of contents [c1] and [c2]. *)
Definition two_pairs (c1 c2 : list byte) : filesystem :=
  Filesystem "album"
    (Dir [("a", regular_bytes c1); ("b", regular_bytes c1);
          ("c", regular_bytes c2); ("d", regular_bytes c2)]).

(** A tree with a file that cannot be stat'ed, one that cannot be opened. *)
Definition faulty : filesystem :=
  Filesystem "album"
    (Dir [("a.txt", regular "hello");
          ("gone", Reg (File (list_byte_of_string "hello") 5
                             (Some "No such file or directory") None));
          ("locked", Reg (File (list_byte_of_string "hello") 5
                               None (Some "Permission denied")));
          ("sub", Dir [("b.txt", regular "hello"); ("link", Broken)])]).

Definition zeros (n : nat) : list byte := replicate n "000"%byte.
End Props.

(** ** What [main] reports *)
Module Report.
Import FS Eff OrderedDict Script Pipeline.
Local Open Scope string_scope.

(** A path of the traversal is filed by the first pass: it is a regular
    file and [os.path.getsize] returns. *)
Definition statable (fs : filesystem) (filepath : string) : bool :=
  isfile fs filepath &&
  match getsize fs filepath with inr _ => true | inl _ => false end.

(** [open] succeeds on the path. *)
Definition readable (fs : filesystem) (filepath : string) : bool :=
  match open_rb fs filepath with inr _ => true | inl _ => false end.

(** The sizes filed by the first pass, one per file, in traversal order. *)
Definition sizes (fs : filesystem) (directory : string) : list Z :=
  (omap (sized fs) (traversal fs directory)).*1.

(** [total_duplicates_found] of [main]: the sum of [len(file_paths) - 1]. *)
Definition extra_copies (duplicate_files : dict string string) : nat :=
  foldr (fun '(_, file_paths) acc => (length file_paths - 1 + acc)%nat)
        0%nat duplicate_files.

Definition scanning_line (target_directory : string) : string :=
  "Scanning '" +:+ target_directory +:+ "' for duplicate files...".

Definition output_filename : string := "local_duplicates.txt".

(** What [main] prints once duplicates were found, before it opens the
    report file. *)
Definition console_report (duplicate_files : dict string string) : list string :=
  [nl +:+ "--- Duplicate Files Found ---"]
    ++ report_lines duplicate_files ""
    ++ [nl +:+ "Total unique duplicate sets: " +:+ pretty (length duplicate_files);
        "Total individual duplicate files (extra copies): "
          +:+ pretty (extra_copies duplicate_files)].

(** What it prints after the report file is written. *)
Definition saved_line : string :=
  nl +:+ "List of duplicate files also saved to '" +:+ output_filename +:+ "'".


(** The digits of [hexdigest()]. *)
Definition lower_hex : list ascii :=
  ["0"; "1"; "2"; "3"; "4"; "5"; "6"; "7";
   "8"; "9"; "a"; "b"; "c"; "d"; "e"; "f"]%char.

Global Instance exn_eq_dec : EqDecision exn.
Proof. solve_decision. Defined.

(** MD5 tells the contents of the files of the traversal apart. *)
Definition no_collision (fs : filesystem) (directory : string) : Prop :=
  ∀ p q c1 c2,
    p ∈ traversal fs directory → q ∈ traversal fs directory →
    open_rb fs p = inr c1 → open_rb fs q = inr c2 →
    MD5.hexdigest c1 = MD5.hexdigest c2 → c1 = c2.

(** Three files of three different sizes. *)
Definition all_different : filesystem :=
  Filesystem "album"
    (Dir [("one", Props.regular "1"); ("two", Props.regular "22");
          ("three", Props.regular "333")]).

End Report.

(** * Facts about the model *)

(** ** The model on concrete inputs *)
Section examples.
Import FS Eff Script Props.
Local Open Scope string_scope.

Example md5_empty : MD5.hexdigest [] = "d41d8cd98f00b204e9800998ecf8427e".
Proof. vm_compute. reflexivity. Qed.

Example md5_hello :
  MD5.hexdigest (list_byte_of_string "hello") = "5d41402abc4b2a76b9719d911017c592".
Proof. vm_compute. reflexivity. Qed.

Example md5_world :
  MD5.hexdigest (list_byte_of_string "world") = "7d793037a0760186574b0282f2f435e7".
Proof. vm_compute. reflexivity. Qed.

Example md5_two_blocks :
  MD5.hexdigest (replicate 120 "a"%byte) = "5f61c0ccad4cac44c75ff505e1f1e537".
Proof. vm_compute. reflexivity. Qed.

Example join_examples :
  join "album" "a.txt" = "album/a.txt" ∧ join "album/" "a.txt" = "album/a.txt"
  ∧ join "" "a.txt" = "a.txt" ∧ join "album" "/etc" = "/etc".
Proof. by vm_compute. Qed.

Example walk_faulty :
  os_walk faulty "album" =
    [("album", ["sub"], ["a.txt"; "gone"; "locked"]);
     ("album/sub", [], ["b.txt"; "link"])].
Proof. reflexivity. Qed.

(** One file cannot be stat'ed, one cannot be opened, one link dangles:
    two warnings, and the two readable copies are still reported. *)
Example find_duplicates_faulty :
  find_duplicates faulty "album" io0 =
    (inr [("5d41402abc4b2a76b9719d911017c592", ["album/a.txt"; "album/sub/b.txt"])],
     IO ["Warning: Could not access file album/gone - No such file or directory";
         "Warning: Could not hash file album/locked - Permission denied"]
        []
        ["album/a.txt"; "album/locked"; "album/sub/b.txt"]).
Proof. vm_compute. reflexivity. Qed.

Example main_target_missing :
  (main scenario io0).2 =
    IO ["Error: Directory 'A:\Drive\Tamannah-07\Tamannah-07\Thumbnails' not found.";
        "Please update 'target_directory' in the script to your actual album path."]
       [] [].
Proof. vm_compute. reflexivity. Qed.

Example read_in_chunks :
  match read_loop scenario 2 Hashlib.md5
          (list_byte_of_string "he") (list_byte_of_string "llo") with
  | inr hasher => Hashlib.fed hasher
  | inl _ => []
  end = list_byte_of_string "hello".
Proof. vm_compute. reflexivity. Qed.

Example read_refused :
  FS.read scenario (list_byte_of_string "hello") (-2)
    = inl (ValueError "read length must be non-negative or -1")
  ∧ FS.read scenario (list_byte_of_string "hello") (2 ^ 63 - 33)
    = inl (OverflowError "byte string is too large")
  ∧ FS.read (MkFilesystem "album" (Dir []) None 0) (list_byte_of_string "hello") 65537
    = inl MemoryError.
Proof. by vm_compute. Qed.

(** With [block_size = 0] nothing is read. *)
Example read_block_size_zero :
  (hash_file Hashlib.md5 scenario "album/a.txt" 0 io0).1 = inr (MD5.hexdigest []).
Proof. vm_compute. reflexivity. Qed.
End examples.

(** ** MD5: the digest is a 128-bit number *)
Section md5_facts.
Local Open Scope Z_scope.

Lemma wrap32_range x : 0 ≤ MD5.wrap32 x < 2 ^ 32.
Proof. unfold MD5.wrap32. apply Z.mod_pos_bound. lia. Qed.

Lemma compress_range w block : MD5.words_in_range (MD5.compress w block).
Proof.
  unfold MD5.compress.
  generalize (fold_left (MD5.step (MD5.le_words 16 block)) MD5.rounds w).
  intros w'. cbv zeta. repeat split; apply wrap32_range.
Qed.

Lemma blocks_range n w bs : MD5.words_in_range w → MD5.words_in_range (MD5.blocks n w bs).
Proof.
  revert w bs. induction n as [|n IH]; intros w bs Hw; [done|].
  change (MD5.blocks (S n) w bs)
    with (MD5.blocks n (MD5.compress w (take 64 bs)) (drop 64 bs)).
  apply IH, compress_range.
Qed.

Lemma digest_range msg : 0 ≤ MD5.digest msg < 2 ^ 128.
Proof.
  unfold MD5.digest, MD5.digest_words.
  generalize (MD5.pad (map MD5.byte_val msg)). intros p.
  assert (MD5.words_in_range MD5.init) as Hinit by (repeat split; done).
  destruct (blocks_range (length p / 64) MD5.init p Hinit) as (HA & HB & HC & HD).
  revert HA HB HC HD. generalize (MD5.blocks (length p / 64) MD5.init p).
  intros [a b c d]. cbn [MD5.wA MD5.wB MD5.wC MD5.wD]. cbv zeta. lia.
Qed.

Lemma hexdigest_of_digest m1 m2 :
  MD5.digest m1 = MD5.digest m2 → MD5.hexdigest m1 = MD5.hexdigest m2.
Proof. unfold MD5.hexdigest. by intros ->. Qed.

(** More messages than values: two of them get the same value. *)
Lemma pigeonhole (N : nat) (f : nat → Z) :
  (∀ i, (i ≤ N)%nat → 0 ≤ f i < Z.of_nat N) →
  ∃ i j, (i < j ≤ N)%nat ∧ f i = f j.
Proof.
  revert f. induction N as [|n IH]; intros f Hf.
  - specialize (Hf 0%nat (le_n _)). lia.
  - destruct (decide (Exists (λ i, f i = f (S n)) (seq 0 (S n)))) as [Hex|Hno].
    + apply Exists_exists in Hex as (i & Hi%elem_of_seq & Heq).
      exists i, (S n). split; [lia|done].
    + assert (∀ i, (i ≤ n)%nat → f i ≠ f (S n)) as Hne.
      { intros i Hi Heq. apply Hno, Exists_exists. exists i.
        split; [apply elem_of_seq; lia|done]. }
      pose proof (Hf (S n) (le_n _)) as Hv.
      destruct (IH (λ i, if decide (f i < f (S n)) then f i else f i - 1))
        as (i & j & Hij & Heq).
      { intros i Hi. specialize (Hf i ltac:(lia)). specialize (Hne i Hi).
        case_decide; lia. }
      exists i, j. split; [lia|].
      pose proof (Hne i ltac:(lia)). pose proof (Hne j ltac:(lia)).
      repeat case_decide; lia.
Qed.

(** Among the all-zero messages of lengths up to 2^128, two of different
    lengths have the same MD5 digest. *)
Lemma md5_collides_across_lengths :
  ∃ i j : nat, i ≠ j ∧
    MD5.hexdigest (replicate i "000"%byte) = MD5.hexdigest (replicate j "000"%byte).
Proof.
  pose proof (Z2Nat.id (2 ^ 128) ltac:(lia)) as HN.
  revert HN. generalize (Z.to_nat (2 ^ 128)). intros N HN.
  destruct (pigeonhole N (λ n, MD5.digest (replicate n "000"%byte)))
    as (i & j & Hij & Heq).
  { intros i _. rewrite HN. apply digest_range. }
  exists i, j. split; [lia|]. by apply hexdigest_of_digest.
Qed.
End md5_facts.

(** ** Insertion-ordered dictionaries *)
Section dict_facts.
Import OrderedDict Pipeline.
Context {K V : Type} `{EqDecision K}.
Implicit Types (k : K) (v : V) (d : dict K V) (kvs : list (K * V)).

Lemma elem_of_nub (l : list K) x : x ∈ nub l ↔ x ∈ l.
Proof.
  induction l as [|a l IH]; simpl; [done|].
  rewrite !elem_of_cons, list_elem_of_filter, IH.
  destruct (decide (x = a)); naive_solver.
Qed.

Lemma NoDup_nub (l : list K) : NoDup (nub l).
Proof.
  induction l as [|a l IH]; simpl; [constructor|].
  constructor; [|by apply NoDup_filter].
  rewrite list_elem_of_filter. naive_solver.
Qed.

Lemma nub_snoc (l : list K) x :
  nub (l ++ [x]) = if decide (x ∈ l) then nub l else nub l ++ [x].
Proof.
  induction l as [|a l IH]; simpl; [done|].
  rewrite IH. destruct (decide (x ∈ l)) as [Hin|Hin].
  - rewrite decide_True by (by right). done.
  - rewrite filter_app, filter_cons, filter_nil.
    destruct (decide (x = a)) as [->|Hne].
    + rewrite decide_False by naive_solver.
      rewrite decide_True by (by left). by rewrite app_nil_r.
    + rewrite decide_True by done.
      rewrite decide_False; [done|]. rewrite elem_of_cons. naive_solver.
Qed.

Lemma values_snoc k kvs k' v :
  values k (kvs ++ [(k', v)]) = values k kvs ++ (if decide (k' = k) then [v] else []).
Proof.
  unfold values. rewrite filter_app, fmap_app, filter_cons, filter_nil.
  simpl. by destruct (decide (k' = k)).
Qed.

Lemma values_nil_iff k kvs : values k kvs = [] ↔ k ∉ kvs.*1.
Proof.
  unfold values. induction kvs as [|[k' v] kvs IH]; simpl.
  - split; [|done]. intros _. by apply not_elem_of_nil.
  - rewrite filter_cons. simpl. rewrite not_elem_of_cons.
    destruct (decide (k' = k)); simpl; naive_solver.
Qed.

Lemma elem_of_values k v kvs : v ∈ values k kvs ↔ (k, v) ∈ kvs.
Proof.
  unfold values. rewrite list_elem_of_fmap. split.
  - intros ([k' v'] & -> & [Hk Hin]%list_elem_of_filter). simpl in *. by subst.
  - intros Hin. exists (k, v). by rewrite list_elem_of_filter.
Qed.

Lemma values_Permutation k kvs1 kvs2 :
  kvs1 ≡ₚ kvs2 → values k kvs1 ≡ₚ values k kvs2.
Proof. intros Hp. unfold values. by rewrite Hp. Qed.

(** [append_at] on a dictionary given by its keys and a function. *)
Lemma append_at_tabulated k v (ks : list K) (f : K → list V) :
  NoDup ks →
  append_at k v ((λ k', (k', f k')) <$> ks) =
    if decide (k ∈ ks)
    then (λ k', (k', f k' ++ if decide (k = k') then [v] else [])) <$> ks
    else ((λ k', (k', f k')) <$> ks) ++ [(k, [v])].
Proof.
  induction 1 as [|a ks Ha Hnd IH]; csimpl.
  - destruct (decide (k ∈ [])) as [Hin|_]; [|done]. by apply elem_of_nil in Hin.
  - destruct (decide (k = a)) as [->|Hne].
    + rewrite decide_True by (by left). csimpl. f_equal.
      apply list_fmap_ext. intros i k' Hk'.
      rewrite decide_False; [by rewrite app_nil_r|].
      intros ->. apply Ha. by eapply list_elem_of_lookup_2.
    + rewrite IH. destruct (decide (k ∈ ks)) as [Hin|Hin].
      * rewrite decide_True by (by right). csimpl. by rewrite app_nil_r.
      * rewrite decide_False; [done|]. rewrite elem_of_cons. naive_solver.
Qed.

Lemma group_by_snoc kvs k v :
  group_by (kvs ++ [(k, v)]) = append_at k v (group_by kvs).
Proof. unfold group_by, group_from. by rewrite fold_left_app. Qed.

(** The closed form of grouping: the keys in order of first occurrence,
    each with the values filed under it, in order. *)
Lemma group_by_tabulated kvs :
  group_by kvs = (λ k, (k, values k kvs)) <$> nub kvs.*1.
Proof.
  induction kvs as [|[k v] kvs IH] using rev_ind; [done|].
  rewrite group_by_snoc, IH, append_at_tabulated by apply NoDup_nub.
  rewrite fmap_app. csimpl. rewrite nub_snoc.
  destruct (decide (k ∈ kvs.*1)) as [Hin|Hin].
  - rewrite decide_True by (by apply elem_of_nub).
    apply list_fmap_ext. intros i k' _. by rewrite values_snoc.
  - rewrite decide_False by (by rewrite elem_of_nub).
    rewrite fmap_app. csimpl. f_equal.
    + apply list_fmap_ext. intros i k' Hk'. rewrite values_snoc.
      rewrite decide_False; [by rewrite app_nil_r|].
      intros ->. apply Hin, elem_of_nub. by eapply list_elem_of_lookup_2.
    + rewrite values_snoc, decide_True by done.
      by apply values_nil_iff in Hin as ->.
Qed.

Lemma keys_group_by kvs : keys (group_by kvs) = nub kvs.*1.
Proof.
  unfold keys. rewrite group_by_tabulated, <- list_fmap_compose.
  apply list_fmap_id.
Qed.

Lemma NoDup_keys_group_by kvs : NoDup (keys (group_by kvs)).
Proof. rewrite keys_group_by. apply NoDup_nub. Qed.

Lemma elem_of_group_by k vs kvs :
  (k, vs) ∈ group_by kvs ↔ vs = values k kvs ∧ k ∈ kvs.*1.
Proof.
  rewrite group_by_tabulated. split.
  - intros (k' & Heq & Hin)%list_elem_of_fmap. simplify_eq/=.
    by apply (proj1 (elem_of_nub _ _)) in Hin.
  - intros [-> Hin]. apply list_elem_of_fmap. exists k. by rewrite elem_of_nub.
Qed.

(** Grouping only regroups: nothing is lost or added. *)
Lemma group_by_flat kvs : flat_map snd (group_by kvs) ≡ₚ kvs.*2.
Proof.
  induction kvs as [|[k v] kvs IH] using rev_ind; [done|].
  rewrite group_by_snoc, fmap_app. simpl. rewrite <- IH.
  generalize (group_by kvs). intros d.
  induction d as [|[k' vs] d IHd]; simpl; [done|].
  destruct (decide (k = k')); simpl.
  - rewrite <- !(assoc_L (++)). f_equiv. apply Permutation_app_comm.
  - rewrite IHd. by rewrite (assoc_L (++)).
Qed.

Lemma more_than_one_spec k vs d :
  (k, vs) ∈ more_than_one d ↔ (1 < length vs)%nat ∧ (k, vs) ∈ d.
Proof.
  unfold more_than_one. rewrite list_elem_of_filter. simpl.
  by rewrite bool_decide_spec.
Qed.

Lemma NoDup_keys_more_than_one d : NoDup (keys d) → NoDup (keys (more_than_one d)).
Proof.
  unfold keys, more_than_one. induction d as [|[k vs] d IH]; [done|].
  rewrite fmap_cons, NoDup_cons. intros [Hk Hnd]. rewrite filter_cons.
  destruct (decide _); csimpl; [|by auto].
  constructor; [|by auto].
  rewrite list_elem_of_fmap. intros ([k' vs'] & -> & [_ Hin]%list_elem_of_filter).
  apply Hk. simpl. by apply (list_elem_of_fmap_2 fst) in Hin.
Qed.
End dict_facts.

(** ** The loops compute the comprehensions *)
Section runs.
Import FS Eff OrderedDict Script Pipeline.
Variable new_hasher : Hashlib.hasher.
Variable fs : filesystem.

Lemma log_nil w : log [] [] w = w.
Proof. destruct w. unfold log. simpl. by rewrite !app_nil_r. Qed.

Lemma log_log l1 c1 l2 c2 w : log l2 c2 (log l1 c1 w) = log (l1 ++ l2) (c1 ++ c2) w.
Proof. unfold log. simpl. by rewrite !(assoc_L (++)). Qed.

Lemma read_limit_bounds : (65536 ≤ read_limit fs ≤ max_bytes)%Z.
Proof. unfold read_limit, max_bytes. lia. Qed.

Lemma read_within_limit (f : list byte) (size : Z) :
  (0 ≤ size ≤ read_limit fs)%Z →
  FS.read fs f size = inr (take (Z.to_nat size) f, drop (Z.to_nat size) f).
Proof.
  intros Hsize. pose proof read_limit_bounds as Hlim. unfold FS.read.
  unfold max_bytes in *.
  assert ((size <? -1) = false)%Z as -> by lia.
  assert ((size =? -1) = false)%Z as -> by lia.
  assert ((2 ^ 63 <=? size) = false)%Z as -> by lia.
  assert ((2 ^ 63 - 34 <? size) = false)%Z as -> by lia.
  assert ((read_limit fs <? size) = false)%Z as -> by lia.
  done.
Qed.

(** The loop feeds the hash object exactly the bytes read, in order. *)
Lemma read_loop_fed (block_size : Z) (hasher : Hashlib.hasher) (buf f : list byte) :
  (0 < block_size ≤ read_limit fs)%Z → (buf = [] → f = []) →
  read_loop fs block_size hasher buf f =
    inr (Hashlib.Hasher (Hashlib.algorithm hasher) (Hashlib.fed hasher ++ buf ++ f)).
Proof.
  intros Hsize. funelim (read_loop fs block_size hasher buf f); intros Hbuf.
  - rewrite Hbuf by done. destruct hasher. simpl. by rewrite app_nil_r.
  - match goal with Hr : FS.read _ _ _ = _ |- _ => pose proof Hr as Hraised end.
    rewrite read_within_limit in Hraised by lia. discriminate Hraised.
  - match goal with Hr : FS.read _ _ _ = _ |- _ => pose proof Hr as Hchunk end.
    rewrite read_within_limit in Hchunk by lia. injection Hchunk as Hb Hf.
    match goal with IH : _ → _ → read_loop _ _ _ _ _ = _ |- _ => rewrite IH end.
    + simpl. rewrite <- Hb, <- Hf, take_drop. by rewrite <- (assoc_L (++)).
    + done.
    + rewrite <- Hb, <- Hf. destruct f as [|x f]; [by rewrite drop_nil|].
      destruct (Z.to_nat block_size) eqn:Hn; [lia|done].
Qed.

Lemma hash_file_run (filepath : string) (block_size : Z) (w : io) :
  (0 < block_size ≤ read_limit fs)%Z →
  hash_file new_hasher fs filepath block_size w =
    (match open_rb fs filepath with
     | inr c => inr (digest_of new_hasher c)
     | inl e => inl e
     end, log [] [filepath] w).
Proof.
  intros Hsize. unfold hash_file, bind, note_hash_call, lift, log. simpl.
  rewrite app_nil_r. destruct (open_rb fs filepath) as [e|c]; [done|].
  rewrite read_within_limit by lia. rewrite read_loop_fed.
  - unfold ret, Hashlib.hexdigest, digest_of. simpl. by rewrite take_drop.
  - done.
  - destruct c as [|x c]; [by rewrite drop_nil|].
    destruct (Z.to_nat block_size) eqn:Hn; [lia|done].
Qed.

Lemma open_rb_oserror (filepath : string) (e : exn) :
  open_rb fs filepath = inl e → ∃ m, e = OSError m.
Proof.
  unfold open_rb. destruct (resolve fs filepath) as [[f| |]|]; try (intros [= <-]; eauto).
  destruct (open_fault f); intros [= <-]; eauto.
Qed.

Lemma getsize_oserror (filepath : string) (e : exn) :
  getsize fs filepath = inl e → ∃ m, e = OSError m.
Proof.
  unfold getsize. destruct (resolve fs filepath) as [[f| |]|]; try (intros [= <-]; eauto).
  destruct (stat_fault f); intros [= <-]; eauto.
Qed.

(** The inner loop of the first pass, over the files of one directory. *)
Lemma first_pass_files (dirpath : string) (filenames : list string)
    (hashes_by_size : dict Z string) (w : io) :
  for_each filenames
    (fun filename hashes_by_size =>
       let filepath := join dirpath filename in
       if isfile fs filepath then
         try_except
           (bind (lift (getsize fs filepath))
              (fun file_size => ret (append_at file_size filepath hashes_by_size)))
           (fun e => bind (print (warn_access filepath e)) (fun _ => ret hashes_by_size))
       else ret hashes_by_size)
    hashes_by_size w =
  (inr (group_from hashes_by_size (omap (sized fs) (map (join dirpath) filenames))),
   log (omap (access_warning fs) (map (join dirpath) filenames)) [] w).
Proof.
  revert hashes_by_size w.
  induction filenames as [|filename filenames IH]; intros hbs w; simpl.
  - by rewrite log_nil.
  - unfold bind at 1. unfold sized at 1, access_warning at 1.
    destruct (isfile fs (join dirpath filename)).
    + unfold try_except, bind, lift, ret, print.
      destruct (getsize fs (join dirpath filename)) as [e|file_size] eqn:Hsize; simpl.
      * apply getsize_oserror in Hsize as [m ->].
        rewrite IH. unfold log. simpl. by rewrite <- (assoc_L (++)).
      * by rewrite IH.
    + unfold ret. by rewrite IH.
Qed.

Lemma first_pass_from (walked : list (string * list string * list string))
    (hashes_by_size : dict Z string) (w : io) :
  let paths := flat_map (fun '(dirpath, _, filenames) => map (join dirpath) filenames) walked in
  for_each walked
    (fun '(dirpath, _, filenames) hashes_by_size =>
       for_each filenames
         (fun filename hashes_by_size =>
            let filepath := join dirpath filename in
            if isfile fs filepath then
              try_except
                (bind (lift (getsize fs filepath))
                   (fun file_size => ret (append_at file_size filepath hashes_by_size)))
                (fun e => bind (print (warn_access filepath e)) (fun _ => ret hashes_by_size))
            else ret hashes_by_size)
         hashes_by_size)
    hashes_by_size w =
  (inr (group_from hashes_by_size (omap (sized fs) paths)),
   log (omap (access_warning fs) paths) [] w).
Proof.
  revert hashes_by_size w.
  induction walked as [|[[dirpath dirs] filenames] walked IH]; intros hbs w; simpl.
  - by rewrite log_nil.
  - unfold bind at 1. rewrite first_pass_files, IH, log_log.
    rewrite !omap_app. unfold group_from. by rewrite fold_left_app.
Qed.

Lemma first_pass_run (directory : string) (w : io) :
  first_pass fs directory w =
    (inr (size_buckets fs directory),
     log (omap (access_warning fs) (traversal fs directory)) [] w).
Proof. unfold first_pass. by rewrite first_pass_from. Qed.

(** The inner loop of the second pass, over one bucket. *)
Lemma second_pass_bucket (file_paths : list string)
    (duplicates : dict string string) (w : io) :
  for_each file_paths
    (fun filepath duplicates =>
       try_except
         (bind (hash_file new_hasher fs filepath default_block_size)
            (fun file_hash => ret (append_at file_hash filepath duplicates)))
         (fun e => bind (print (warn_hash filepath e)) (fun _ => ret duplicates)))
    duplicates w =
  (inr (group_from duplicates (omap (hashed new_hasher fs) file_paths)),
   log (omap (hash_warning fs) file_paths) file_paths w).
Proof.
  revert duplicates w.
  induction file_paths as [|filepath file_paths IH]; intros dups w; simpl.
  - by rewrite log_nil.
  - unfold bind at 1, try_except, bind at 1.
    rewrite hash_file_run
      by (pose proof read_limit_bounds; unfold default_block_size; lia).
    unfold hashed at 1, hash_warning at 1.
    destruct (open_rb fs filepath) as [e|c] eqn:Hopen; simpl.
    + apply open_rb_oserror in Hopen as [m ->]. simpl.
      rewrite IH. unfold log. simpl.
      by rewrite app_nil_r, <- !(assoc_L (++)).
    + rewrite IH. unfold log. simpl.
      by rewrite app_nil_r, <- !(assoc_L (++)).
Qed.

Lemma second_pass_from (hashes_by_size : dict Z string)
    (duplicates : dict string string) (w : io) :
  for_each hashes_by_size
    (fun '(file_size, file_paths) duplicates =>
       if bool_decide (1 < length file_paths)%nat then
         for_each file_paths
           (fun filepath duplicates =>
              try_except
                (bind (hash_file new_hasher fs filepath default_block_size)
                   (fun file_hash => ret (append_at file_hash filepath duplicates)))
                (fun e => bind (print (warn_hash filepath e)) (fun _ => ret duplicates)))
           duplicates
       else ret duplicates)
    duplicates w =
  (inr (group_from duplicates (omap (hashed new_hasher fs) (to_hash hashes_by_size))),
   log (omap (hash_warning fs) (to_hash hashes_by_size)) (to_hash hashes_by_size) w).
Proof.
  revert duplicates w.
  induction hashes_by_size as [|[file_size file_paths] hbs IH]; intros dups w; simpl.
  - by rewrite log_nil.
  - unfold bind at 1. destruct (bool_decide (1 < length file_paths)%nat).
    + rewrite second_pass_bucket, IH, log_log.
      rewrite !omap_app. unfold group_from. by rewrite fold_left_app.
    + unfold ret. by rewrite IH.
Qed.

Lemma second_pass_run (hashes_by_size : dict Z string) (w : io) :
  second_pass new_hasher fs hashes_by_size w =
    (inr (group_by (omap (hashed new_hasher fs) (to_hash hashes_by_size))),
     log (omap (hash_warning fs) (to_hash hashes_by_size)) (to_hash hashes_by_size) w).
Proof. unfold second_pass. by rewrite second_pass_from. Qed.

(** A run of [find_duplicates] returns the groups of [duplicate_groups],
    prints the warnings and calls [hash_file] on the paths of the buckets
    of two or more; it does not raise. *)
Theorem find_duplicates_run (directory : string) (w : io) :
  find_duplicates_with new_hasher fs directory w =
    (inr (duplicate_groups new_hasher fs directory),
     log (warnings fs directory) (to_hash (size_buckets fs directory)) w).
Proof.
  unfold find_duplicates_with, bind.
  rewrite first_pass_run, second_pass_run, log_log. done.
Qed.
End runs.

(** ** Lists: regrouping keeps members, listing order does not matter *)
Section list_facts.
Context {A B : Type}.

Lemma submseteq_NoDup_1 (l k : list A) : l ⊆+ k → NoDup k → NoDup l.
Proof.
  induction 1 as [|x l k Hlk IH|x y l|x l k Hlk IH|l k m _ IH1 _ IH2]; intros Hk.
  - done.
  - apply NoDup_cons in Hk as [Hx Hk]. apply NoDup_cons. split; [|by auto].
    intros Hin. apply Hx. by eapply elem_of_submseteq.
  - by rewrite (Permutation_swap x y l).
  - apply NoDup_cons in Hk as [_ Hk]. by auto.
  - by auto.
Qed.

Lemma flat_map_fmap {C} (f : A → B) (g : B → list C) (l : list A) :
  flat_map g (f <$> l) = flat_map (g ∘ f) l.
Proof. induction l as [|x l IH]; csimpl; [done|]. by rewrite IH. Qed.

Lemma flat_map_pointwise_perm (f g : A → list B) (l : list A) :
  (∀ x, x ∈ l → f x ≡ₚ g x) → flat_map f l ≡ₚ flat_map g l.
Proof.
  induction l as [|x l IH]; intros Hfg; simpl; [done|].
  rewrite Hfg by left. f_equiv. apply IH. intros y Hy. apply Hfg. by right.
Qed.

Lemma flat_map_submseteq (f g : A → list B) (l : list A) :
  (∀ x, f x ⊆+ g x) → flat_map f l ⊆+ flat_map g l.
Proof.
  intros Hfg. induction l as [|x l IH]; simpl; [done|]. by apply submseteq_app.
Qed.

Lemma elem_of_flat_map (f : A → list B) (l : list A) (y : B) :
  y ∈ flat_map f l ↔ ∃ x, x ∈ l ∧ y ∈ f x.
Proof.
  induction l as [|x l IH]; simpl.
  - split; [by intros ?%elem_of_nil|]. by intros (x & ?%elem_of_nil & _).
  - rewrite elem_of_app, IH. setoid_rewrite elem_of_cons. naive_solver.
Qed.

(** Dropping entries and keeping a component that names the entry. *)
Lemma omap_tagged_sublist (f : A → option (B * A)) (l : list A) :
  (∀ x y, f x = Some y → y.2 = x) → (omap f l).*2 `sublist_of` l.
Proof.
  intros Hf. induction l as [|x l IH]; csimpl; [done|].
  destruct (f x) as [y|] eqn:Hy; csimpl.
  - rewrite (Hf _ _ Hy). by apply sublist_skip.
  - by apply sublist_cons.
Qed.

Lemma NoDup_flat_map_member (f : A → list B) (l : list A) (x : A) :
  NoDup (flat_map f l) → x ∈ l → NoDup (f x).
Proof.
  induction l as [|a l IH]; simpl; [by intros _ ?%elem_of_nil|].
  rewrite NoDup_app, elem_of_cons. intros (Ha & _ & Hl) [->|Hx]; by auto.
Qed.

Lemma NoDup_flat_map_disjoint (f : A → list B) (l : list A) i j x y z :
  NoDup (flat_map f l) → l !! i = Some x → l !! j = Some y →
  z ∈ f x → z ∈ f y → i = j.
Proof.
  revert i j. induction l as [|a l IH]; intros i j; simpl; [done|].
  rewrite NoDup_app. intros (_ & Hdisj & Hl) Hi Hj Hzx Hzy.
  destruct i as [|i], j as [|j]; simplify_eq/=.
  - done.
  - exfalso. eapply Hdisj; [done|]. apply elem_of_flat_map.
    exists y. split; [by eapply list_elem_of_lookup_2|done].
  - exfalso. eapply Hdisj; [done|]. apply elem_of_flat_map.
    exists x. split; [by eapply list_elem_of_lookup_2|done].
  - f_equal. by eapply IH.
Qed.

Lemma two_members_length (l : list A) (x y : A) :
  x ≠ y → x ∈ l → y ∈ l → (1 < length l)%nat.
Proof.
  intros Hne Hx Hy. destruct l as [|a [|b l]]; simpl; [|exfalso|lia].
  - by apply elem_of_nil in Hx.
  - apply list_elem_of_singleton in Hx, Hy. congruence.
Qed.
End list_facts.

(** ** The two passes *)
Section pipeline_facts.
Import FS Eff OrderedDict Script Pipeline.
Variable new_hasher : Hashlib.hasher.
Variable fs : filesystem.

Lemma sized_Some p s q :
  sized fs p = Some (s, q) → q = p ∧ isfile fs p = true ∧ getsize fs p = inr s.
Proof.
  unfold sized. destruct (isfile fs p); [|done].
  destruct (getsize fs p); [done|]. by intros [= -> ->].
Qed.

Lemma hashed_Some p h q :
  hashed new_hasher fs p = Some (h, q) →
  q = p ∧ ∃ c, open_rb fs p = inr c ∧ h = digest_of new_hasher c.
Proof.
  unfold hashed. destruct (open_rb fs p) as [|c]; [done|].
  intros [= <- <-]. eauto.
Qed.

Lemma elem_of_to_hash (d : dict Z string) p :
  p ∈ to_hash d ↔ ∃ s ps, (s, ps) ∈ d ∧ (1 < length ps)%nat ∧ p ∈ ps.
Proof.
  unfold to_hash. rewrite elem_of_flat_map. split.
  - intros ([s ps] & Hin & Hp). exists s, ps.
    case_bool_decide; [done|]. by apply elem_of_nil in Hp.
  - intros (s & ps & Hin & Hlen & Hp). exists (s, ps).
    by rewrite bool_decide_eq_true_2.
Qed.

Lemma to_hash_submseteq (d : dict Z string) : to_hash d ⊆+ flat_map snd d.
Proof.
  apply flat_map_submseteq. intros [s ps]. simpl.
  case_bool_decide; [done|apply submseteq_nil_l].
Qed.

(** The paths hashed do not depend on the order the pairs were filed in. *)
Lemma to_hash_group_by_perm (kvs1 kvs2 : list (Z * string)) :
  kvs1 ≡ₚ kvs2 → to_hash (group_by kvs1) ≡ₚ to_hash (group_by kvs2).
Proof.
  intros Hp. unfold to_hash. rewrite !group_by_tabulated, !flat_map_fmap.
  assert (nub kvs1.*1 ≡ₚ nub kvs2.*1) as ->.
  { apply NoDup_Permutation; [apply NoDup_nub..|].
    intros k. rewrite !elem_of_nub. by rewrite Hp. }
  apply flat_map_pointwise_perm. intros k _. simpl.
  pose proof (values_Permutation k _ _ Hp) as Hv.
  rewrite (Permutation_length Hv). by case_bool_decide.
Qed.

Lemma elem_of_size_buckets directory s ps :
  (s, ps) ∈ size_buckets fs directory →
  ps = values s (omap (sized fs) (traversal fs directory)) ∧
  ∀ p, p ∈ ps ↔ p ∈ traversal fs directory ∧ isfile fs p = true ∧ getsize fs p = inr s.
Proof.
  intros [-> _]%elem_of_group_by. split; [done|]. intros p.
  rewrite elem_of_values, list_elem_of_omap. split.
  - intros (x & Hx & (-> & ? & ?)%sized_Some). done.
  - intros (Hin & Hfile & Hsize). exists p. split; [done|].
    unfold sized. by rewrite Hfile, Hsize.
Qed.

(** A path is hashed when its size is that of a bucket of two or more. *)
Lemma to_hash_size_buckets directory p :
  p ∈ to_hash (size_buckets fs directory) →
  p ∈ traversal fs directory ∧ isfile fs p = true ∧
  ∃ s, getsize fs p = inr s ∧
       (1 < length (values s (omap (sized fs) (traversal fs directory))))%nat.
Proof.
  intros (s & ps & Hin & Hlen & Hp)%elem_of_to_hash.
  apply elem_of_size_buckets in Hin as [Hps Hmem].
  apply Hmem in Hp as (? & ? & ?). split_and!; [done..|].
  exists s. by rewrite <- Hps.
Qed.

Lemma elem_of_hash_groups directory h ps :
  (h, ps) ∈ hash_groups new_hasher fs directory →
  ∀ p, p ∈ ps ↔ p ∈ to_hash (size_buckets fs directory) ∧
                 ∃ c, open_rb fs p = inr c ∧ h = digest_of new_hasher c.
Proof.
  intros [-> _]%elem_of_group_by p.
  rewrite elem_of_values, list_elem_of_omap. split.
  - intros (x & Hx & (-> & ?)%hashed_Some). done.
  - intros (Hin & c & Hc & ->). exists p. split; [done|].
    unfold hashed. by rewrite Hc.
Qed.

Lemma elem_of_duplicate_groups directory h ps :
  (h, ps) ∈ duplicate_groups new_hasher fs directory ↔
  (1 < length ps)%nat ∧ (h, ps) ∈ hash_groups new_hasher fs directory.
Proof. apply more_than_one_spec. Qed.

Lemma NoDup_keys_duplicate_groups directory :
  NoDup (keys (duplicate_groups new_hasher fs directory)).
Proof. apply NoDup_keys_more_than_one, NoDup_keys_group_by. Qed.

(** Every member occurrence of the output is an occurrence in the traversal. *)
Lemma duplicate_groups_submseteq directory :
  flat_map snd (duplicate_groups new_hasher fs directory) ⊆+ traversal fs directory.
Proof.
  unfold duplicate_groups, hash_groups, size_buckets.
  set (kv1 := omap (sized fs) _). set (kv2 := omap (hashed new_hasher fs) _).
  assert (flat_map snd (more_than_one (group_by kv2)) ⊆+ flat_map snd (group_by kv2)) as ->.
  { unfold more_than_one. generalize (group_by kv2). intros d.
    induction d as [|[h ps] d IH]; [done|]. rewrite filter_cons.
    destruct (decide _); simpl.
    - by apply submseteq_skips_l.
    - by apply submseteq_inserts_l. }
  rewrite group_by_flat. subst kv2.
  assert ((omap (hashed new_hasher fs) (to_hash (group_by kv1))).*2
            ⊆+ to_hash (group_by kv1)) as ->.
  { apply sublist_submseteq, omap_tagged_sublist.
    intros x [h q] (-> & _)%hashed_Some. done. }
  rewrite to_hash_submseteq, group_by_flat. subst kv1.
  apply sublist_submseteq, omap_tagged_sublist.
  intros x [s q] (-> & _)%sized_Some. done.
Qed.
End pipeline_facts.

(** ** Runs of [find_duplicates] *)
Section run_facts.
Import FS Eff OrderedDict Script Pipeline Props.
Local Open Scope string_scope.

Lemma find_duplicates_returns (fs : filesystem) (directory : string) (w : io) :
  find_duplicates fs directory w =
    (inr (duplicate_groups Hashlib.md5 fs directory),
     log (warnings fs directory) (to_hash (size_buckets fs directory)) w).
Proof. apply find_duplicates_run. Qed.

Lemma elem_of_as_sets_groups (kvs : list (string * string)) h (S : gset string) :
  (h, S) ∈ as_sets (more_than_one (group_by kvs)) ↔
  S = list_to_set (values h kvs) ∧ (1 < length (values h kvs))%nat ∧ h ∈ kvs.*1.
Proof.
  unfold as_sets. rewrite elem_of_list_to_set, list_elem_of_fmap. split.
  - intros ([h' ps] & [= -> ->] & [Hlen [-> Hin]%elem_of_group_by]%more_than_one_spec).
    done.
  - intros (-> & Hlen & Hin). exists (h, values h kvs). split; [done|].
    apply more_than_one_spec. split; [done|]. by apply elem_of_group_by.
Qed.

Lemma as_sets_groups_perm (kvs1 kvs2 : list (string * string)) :
  kvs1 ≡ₚ kvs2 →
  as_sets (more_than_one (group_by kvs1)) = as_sets (more_than_one (group_by kvs2)).
Proof.
  intros Hp. apply set_eq. intros [h S]. rewrite !elem_of_as_sets_groups.
  pose proof (values_Permutation h _ _ Hp) as Hv.
  rewrite (Permutation_length Hv), (list_to_set_perm_L _ _ Hv).
  by rewrite Hp.
Qed.

Lemma omap_agree {A B} (f g : A → option B) (l : list A) :
  Forall (λ x, f x = g x) l → omap f l = omap g l.
Proof. induction 1 as [|x l Hx _ IH]; csimpl; [done|]. by rewrite Hx, IH. Qed.

Lemma sized_same_file fs1 fs2 p : same_file fs1 fs2 p → sized fs1 p = sized fs2 p.
Proof. intros (Hf & Hs & _). unfold sized. by rewrite Hf, Hs. Qed.

Lemma hashed_same_file h fs1 fs2 p :
  same_file fs1 fs2 p → hashed h fs1 p = hashed h fs2 p.
Proof. intros (_ & _ & Ho). unfold hashed. by rewrite Ho. Qed.

(** The groups as sets depend on the files, not on the listing order. *)
Lemma duplicate_groups_perm h fs1 fs2 directory :
  traversal fs1 directory ≡ₚ traversal fs2 directory →
  Forall (same_file fs1 fs2) (traversal fs1 directory) →
  as_sets (duplicate_groups h fs1 directory) = as_sets (duplicate_groups h fs2 directory).
Proof.
  intros Hp Hsame. unfold duplicate_groups, hash_groups.
  assert (omap (sized fs1) (traversal fs1 directory)
            ≡ₚ omap (sized fs2) (traversal fs2 directory)) as Hkv1.
  { rewrite <- Hp. erewrite omap_agree; [done|].
    eapply Forall_impl; [done|]. apply sized_same_file. }
  pose proof (to_hash_group_by_perm _ _ Hkv1) as Hth.
  apply as_sets_groups_perm. fold (size_buckets fs1 directory) in *.
  fold (size_buckets fs2 directory) in *.
  rewrite <- Hth. erewrite omap_agree; [done|].
  apply Forall_forall. intros p (Hin & _)%to_hash_size_buckets.
  apply hashed_same_file. by eapply Forall_forall in Hsame.
Qed.

Lemma warnings_explained fs directory line :
  line ∈ warnings fs directory →
  ∃ p e, p ∈ traversal fs directory ∧ isfile fs p = true ∧
         ((line = warn_access p e ∧ getsize fs p = inl e) ∨
          (line = warn_hash p e ∧ open_rb fs p = inl e)).
Proof.
  unfold warnings. rewrite elem_of_app, !list_elem_of_omap.
  intros [(p & Hp & Hw)|(p & Hp & Hw)].
  - unfold access_warning in Hw. destruct (isfile fs p) eqn:Hf; [|done].
    destruct (getsize fs p) as [e|] eqn:Hs; [|done].
    exists p, e. split_and!; [done..|]. left. injection Hw as <-. by split.
  - apply to_hash_size_buckets in Hp as (Hin & Hf & _).
    unfold hash_warning in Hw. destruct (open_rb fs p) as [e|] eqn:Ho; [|done].
    exists p, e. split_and!; [done..|]. right. injection Hw as <-. by split.
Qed.

Lemma not_a_directory_no_walk fs directory :
  isdir fs directory = false → os_walk fs directory = [].
Proof.
  unfold isdir, os_walk. by destruct (resolve fs directory) as [[| |]|].
Qed.
End run_facts.

(** ** Groups are keyed by digest alone *)
Section cross_size.
Import FS Eff OrderedDict Script Pipeline Props.
Local Open Scope string_scope.
Variable new_hasher : Hashlib.hasher.

(** Members of one group have one digest; they were sized and read. *)
Lemma group_members fs directory h ps p :
  (h, ps) ∈ duplicate_groups new_hasher fs directory → p ∈ ps →
  p ∈ traversal fs directory ∧ isfile fs p = true ∧
  ∃ c s, open_rb fs p = inr c ∧ h = digest_of new_hasher c ∧
         getsize fs p = inr s.
Proof.
  intros [_ Hg]%elem_of_duplicate_groups Hp.
  apply (elem_of_hash_groups _ _ _ _ _ Hg) in Hp as [Hth (c & Hc & ->)].
  apply to_hash_size_buckets in Hth as (Hin & Hfile & s & Hs & _).
  split; [done|]. split; [done|]. by exists c, s.
Qed.

(** Two pairs of files whose contents differ in length and agree in
    digest end up in one group. *)
Lemma two_pairs_one_group (c1 c2 : list byte) :
  length c1 ≠ length c2 →
  digest_of new_hasher c1 = digest_of new_hasher c2 →
  duplicate_groups new_hasher (two_pairs c1 c2) "album"
    = [(digest_of new_hasher c1, ["album/a"; "album/b"; "album/c"; "album/d"])].
Proof.
  intros Hlen Hdig.
  unfold duplicate_groups, hash_groups, size_buckets.
  change (traversal (two_pairs c1 c2) "album")
    with ["album/a"; "album/b"; "album/c"; "album/d"].
  change (omap (sized (two_pairs c1 c2)) ["album/a"; "album/b"; "album/c"; "album/d"])
    with [(Z.of_N (N.of_nat (length c1)), "album/a"); (Z.of_N (N.of_nat (length c1)), "album/b");
          (Z.of_N (N.of_nat (length c2)), "album/c"); (Z.of_N (N.of_nat (length c2)), "album/d")].
  assert (Z.of_N (N.of_nat (length c1)) ≠ Z.of_N (N.of_nat (length c2))) as Hne by lia.
  revert Hne. generalize (Z.of_N (N.of_nat (length c1))) (Z.of_N (N.of_nat (length c2))).
  intros n1 n2 Hne.
  assert (group_by [(n1, "album/a"); (n1, "album/b"); (n2, "album/c"); (n2, "album/d")]
            = [(n1, ["album/a"; "album/b"]); (n2, ["album/c"; "album/d"])]) as ->.
  { unfold group_by, group_from. simpl.
    repeat (case_decide; try congruence; simpl). }
  change (omap (hashed new_hasher (two_pairs c1 c2))
            (to_hash [(n1, ["album/a"; "album/b"]); (n2, ["album/c"; "album/d"])]))
    with [(digest_of new_hasher c1, "album/a"); (digest_of new_hasher c1, "album/b");
          (digest_of new_hasher c2, "album/c"); (digest_of new_hasher c2, "album/d")].
  rewrite <- Hdig. generalize (digest_of new_hasher c1). intros h.
  unfold group_by, group_from. simpl.
  repeat (case_decide; try congruence; simpl). reflexivity.
Qed.
End cross_size.

(** * The claims *)


(** C1: every group in the mapping [find_duplicates] returns has at least
    two member paths, and no hash key with a list of exactly one path is in
    the output. *)
Theorem C1_groups_have_two_members
    (fs : FS.filesystem) (directory : string) (w : Eff.io) :
  ∃ groups, (Script.find_duplicates fs directory w).1 = inr groups ∧
    Forall (λ g, (2 ≤ length g.2)%nat) groups ∧
    ∀ h p, (h, [p]) ∉ groups.
Proof.
  rewrite find_duplicates_returns. eexists. split; [done|]. split.
  - apply Forall_forall. intros [h ps] Hin.
    apply elem_of_duplicate_groups in Hin as [Hlen _]. simpl. lia.
  - intros h p Hin. apply elem_of_duplicate_groups in Hin as [Hlen _].
    simpl in Hlen. lia.
Qed.

(** C2: two runs over trees with the same paths, sizes and bytes return the
    same set of hash-to-path-set groups, whatever order the paths are
    listed in. *)
Theorem C2_same_groups_as_sets
    (fs1 fs2 : FS.filesystem) (directory : string) (w1 w2 : Eff.io) :
  Pipeline.traversal fs1 directory ≡ₚ Pipeline.traversal fs2 directory →
  Forall (Props.same_file fs1 fs2) (Pipeline.traversal fs1 directory) →
  ∃ groups1 groups2,
    (Script.find_duplicates fs1 directory w1).1 = inr groups1 ∧
    (Script.find_duplicates fs2 directory w2).1 = inr groups2 ∧
    Pipeline.as_sets groups1 = Pipeline.as_sets groups2.
Proof.
  intros Hp Hsame. rewrite !find_duplicates_returns. eexists _, _.
  split; [done|]. split; [done|]. by apply duplicate_groups_perm.
Qed.

Lemma C2_same_groups_as_sets_witness :
  ∃ groups1 groups2,
    (Script.find_duplicates Props.scenario "album" Eff.io0).1 = inr groups1 ∧
    (Script.find_duplicates Props.scenario_relisted "album" Eff.io0).1 = inr groups2 ∧
    Pipeline.as_sets groups1 = Pipeline.as_sets groups2.
Proof.
  apply (C2_same_groups_as_sets Props.scenario Props.scenario_relisted "album"
           Eff.io0 Eff.io0).
  - vm_compute. apply (Permutation_trans (perm_skip _ (perm_swap _ _ _))).
    apply (Permutation_trans (perm_swap _ _ _)).
    apply perm_skip, perm_swap.
  - vm_compute. repeat constructor.
Defined.




(** C4, as stated, fails: with a content-hash function that gives every
    content the same digest, two empty files and two one-byte files are
    returned as one group. *)
Lemma C4_constant_digest_mixes_sizes :
  ¬ ∃ groups,
      (Script.find_duplicates_with Props.constant_hasher Props.empties "album" Eff.io0).1
        = inr groups ∧
      Forall (Props.empty_apart Props.empties) groups.
Proof.
  intros (groups & Hrun & Hall). vm_compute in Hrun. injection Hrun as <-.
  apply Forall_cons in Hall as [Hgroup _].
  specialize (Hgroup "album/e1" "album/x1" 1%Z)%string. cbn [snd] in Hgroup.
  assert (1 = 0)%Z; [|lia].
  apply Hgroup; [rewrite !elem_of_cons; auto..|reflexivity|reflexivity].
Qed.

(** C4 (amended): no group holds a file of size 0 together with a file of
    another size, for every content-hash function that gives no non-empty
    file of the tree the digest of the empty content, provided every file of
    the tree is as long as [getsize] reports. *)
Theorem C4_empty_apart_when_digests_apart
    (new_hasher : Hashlib.hasher) (fs : FS.filesystem) (directory : string)
    (w : Eff.io) :
  Props.sizes_are_lengths fs directory →
  Props.empty_digest_apart new_hasher fs directory →
  ∃ groups,
    (Script.find_duplicates_with new_hasher fs directory w).1 = inr groups ∧
    Forall (Props.empty_apart fs) groups.
Proof.
  intros Hlen Hapart. rewrite find_duplicates_run. eexists. split; [done|].
  apply Forall_forall. intros [h ps] Hg p q s Hp Hq Hsp Hsq. simpl in Hp, Hq.
  destruct (group_members _ _ _ _ _ _ Hg Hp) as (Hpin & _ & c1 & s1 & Hc1 & Hh1 & Hs1).
  destruct (group_members _ _ _ _ _ _ Hg Hq) as (Hqin & _ & c2 & s2 & Hc2 & Hh2 & Hs2).
  pose proof (Hlen p 0%Z c1 Hpin Hsp Hc1) as Hl1.
  rewrite (Hlen q s c2 Hqin Hsq Hc2).
  assert (c1 = []) as -> by (destruct c1; [done|simpl in Hl1; lia]).
  rewrite (Hapart p q c2 Hpin Hqin Hc1 Hc2); [done|congruence].
Qed.

Lemma C4_empty_apart_when_digests_apart_witness :
  ∃ groups,
    (Script.find_duplicates_with Hashlib.md5 Props.empties "album" Eff.io0).1 = inr groups ∧
    Forall (Props.empty_apart Props.empties) groups.
Proof.
  apply (C4_empty_apart_when_digests_apart Hashlib.md5 Props.empties "album" Eff.io0).
  - intros p s c Hp Hs Hc.
    change (Pipeline.traversal Props.empties "album")
      with ["album/e1"; "album/e2"; "album/x1"; "album/x2"]%string in Hp.
    rewrite !elem_of_cons, elem_of_nil in Hp.
    destruct Hp as [->|[->|[->|[->|[]]]]];
      vm_compute in Hs, Hc; injection Hs as <-; injection Hc as <-; reflexivity.
  - intros p q c Hp Hq Hc1 Hc2 Hdig.
    change (Pipeline.traversal Props.empties "album")
      with ["album/e1"; "album/e2"; "album/x1"; "album/x2"]%string in Hp, Hq.
    rewrite !elem_of_cons, elem_of_nil in Hq.
    destruct Hq as [->|[->|[->|[->|[]]]]];
      vm_compute in Hc2; injection Hc2 as <-;
      first [reflexivity | vm_compute in Hdig; discriminate Hdig].
Defined.

(** C5, as stated, fails: for a root path that does not exist the run does
    not end in an error. *)
Lemma C5_missing_root_is_no_error :
  FS.isdir Props.scenario "nowhere" = false ∧
  ¬ Props.raised (Script.find_duplicates Props.scenario "nowhere" Eff.io0).
Proof.
  split; [reflexivity|]. intros [e He]. vm_compute in He. discriminate.
Qed.

(** C5 (amended): for a root path that does not exist or is not a
    directory, [find_duplicates] raises nothing: it returns the empty
    mapping and leaves no output. The check is [main]'s, which prints the
    two error lines and returns without scanning. *)
Theorem C5_missing_root_empty_mapping
    (fs : FS.filesystem) (directory : string) (w : Eff.io) :
  FS.isdir fs directory = false →
  Script.find_duplicates fs directory w = (inr [], w) ∧
  Script.main_on fs directory w =
    (inr tt,
     Pipeline.log
       [("Error: Directory '" +:+ directory +:+ "' not found.")%string;
        "Please update 'target_directory' in the script to your actual album path."%string]
       [] w).
Proof.
  intros Hdir. split.
  - rewrite find_duplicates_returns.
    unfold Pipeline.duplicate_groups, Pipeline.hash_groups, Pipeline.warnings,
      Pipeline.size_buckets, Pipeline.traversal.
    rewrite (not_a_directory_no_walk _ _ Hdir). simpl. by rewrite log_nil.
  - unfold Script.main_on. rewrite Hdir. simpl.
    unfold Eff.bind, Eff.print, Pipeline.log. simpl.
    by rewrite app_nil_r, <- (assoc_L (++)).
Qed.

Lemma C5_missing_root_empty_mapping_witness :
  FS.isdir Props.scenario "album/a.txt" = false ∧
  Script.find_duplicates Props.scenario "album/a.txt" Eff.io0 = (inr [], Eff.io0).
Proof.
  split; [reflexivity|].
  apply (C5_missing_root_empty_mapping Props.scenario "album/a.txt" Eff.io0).
  reflexivity.
Defined.

(** C6: a path that is alone in its size bucket is never passed to
    [hash_file]; every call of [hash_file] is on a path of a bucket with two
    or more members. *)
Theorem C6_single_bucket_not_hashed
    (fs : FS.filesystem) (directory : string) (w : Eff.io) :
  ∃ hashes_by_size w1 duplicates w2 calls,
    Script.first_pass fs directory w = (inr hashes_by_size, w1) ∧
    Script.second_pass Hashlib.md5 fs hashes_by_size w1 = (inr duplicates, w2) ∧
    Script.find_duplicates fs directory w = (inr (OrderedDict.more_than_one duplicates), w2) ∧
    Eff.hash_calls w2 = Eff.hash_calls w ++ calls ∧
    (∀ s p, (s, [p]) ∈ hashes_by_size → p ∉ calls) ∧
    (∀ p, p ∈ calls →
          ∃ s ps, (s, ps) ∈ hashes_by_size ∧ p ∈ ps ∧ (2 ≤ length ps)%nat).
Proof.
  eexists _, _, _, _, (Pipeline.to_hash (Pipeline.size_buckets fs directory)).
  split; [apply first_pass_run|]. split; [apply second_pass_run|].
  split; [|split; [|split]].
  - rewrite find_duplicates_returns, log_log. done.
  - simpl. by rewrite app_nil_r.
  - intros s p Hin (s' & ps & Hin' & Hlen & Hp)%elem_of_to_hash.
    pose proof (elem_of_size_buckets _ _ _ _ Hin) as [Hps Hmem].
    pose proof (elem_of_size_buckets _ _ _ _ Hin') as [Hps' Hmem'].
    apply Hmem' in Hp as (_ & _ & Hs').
    assert (p ∈ [p]) as (_ & _ & Hs)%Hmem by apply list_elem_of_singleton, eq_refl.
    assert (s' = s) as -> by congruence.
    rewrite Hps', <- Hps in Hlen. simpl in Hlen. lia.
  - intros p (s & ps & Hin & Hlen & Hp)%elem_of_to_hash.
    exists s, ps. split_and!; [done..|lia].
Qed.

(** C7, as stated, fails: a dangling link is an entry whose size cannot be
    obtained, and it is skipped without any warning: [os.path.isfile]
    rejects it before [getsize] is tried. *)
Lemma C7_broken_link_not_warned :
  "album/sub/link"%string ∈ Pipeline.traversal Props.faulty "album" ∧
  FS.getsize Props.faulty "album/sub/link"
    = inl (FS.OSError "No such file or directory") ∧
  ∀ e, (Script.warn_access "album/sub/link" e
          ∉ Eff.stdout (Script.find_duplicates Props.faulty "album" Eff.io0).2)
       ∧ (Script.warn_hash "album/sub/link" e
          ∉ Eff.stdout (Script.find_duplicates Props.faulty "album" Eff.io0).2).
Proof.
  split; [|split].
  - apply (bool_decide_unpack _). vm_compute. exact I.
  - reflexivity.
  - intros e.
    change (Eff.stdout (Script.find_duplicates Props.faulty "album" Eff.io0).2)
      with ["Warning: Could not access file album/gone - No such file or directory";
            "Warning: Could not hash file album/locked - Permission denied"]%string.
    rewrite !elem_of_cons, !elem_of_nil.
    split; intros [Heq|[Heq|[]]]; vm_compute in Heq; discriminate Heq.
Qed.

(** C7 (amended): no per-entry failure aborts the run. An entry that
    [os.path.isfile] rejects (a dangling link, an entry that may not be
    stat'ed) is skipped silently: it is in no group, not hashed, and every
    warning printed is about a regular file. A regular file whose [getsize]
    raises, or whose [open] raises while hashing, is skipped with its
    warning. Every member of a returned group was sized and read, and any
    two other files of equal size and equal digest are still reported
    together. *)
Theorem C7_entry_failures_are_skipped
    (fs : FS.filesystem) (directory : string) (w : Eff.io) :
  ∃ groups,
    Script.find_duplicates fs directory w
      = (inr groups,
         Pipeline.log (Pipeline.warnings fs directory)
           (Pipeline.to_hash (Pipeline.size_buckets fs directory)) w) ∧
    (∀ p, p ∈ Pipeline.traversal fs directory → FS.isfile fs p = false →
          (p ∉ Pipeline.to_hash (Pipeline.size_buckets fs directory)) ∧
          ∀ g, g ∈ groups → p ∉ g.2) ∧
    (∀ line, line ∈ Pipeline.warnings fs directory →
       ∃ p e, p ∈ Pipeline.traversal fs directory ∧ FS.isfile fs p = true ∧
              ((line = Script.warn_access p e ∧ FS.getsize fs p = inl e) ∨
               (line = Script.warn_hash p e ∧ FS.open_rb fs p = inl e))) ∧
    (∀ p e, p ∈ Pipeline.traversal fs directory →
            FS.isfile fs p = true → FS.getsize fs p = inl e →
            Script.warn_access p e ∈ Pipeline.warnings fs directory ∧
            ∀ g, g ∈ groups → p ∉ g.2) ∧
    (∀ p e, p ∈ Pipeline.to_hash (Pipeline.size_buckets fs directory) →
            FS.open_rb fs p = inl e →
            Script.warn_hash p e ∈ Pipeline.warnings fs directory ∧
            ∀ g, g ∈ groups → p ∉ g.2) ∧
    (∀ g p, g ∈ groups → p ∈ g.2 →
            p ∈ Pipeline.traversal fs directory ∧ FS.isfile fs p = true ∧
            ∃ c s, FS.open_rb fs p = inr c ∧ g.1 = MD5.hexdigest c ∧
                   FS.getsize fs p = inr s) ∧
    (∀ p q s c1 c2,
        p ≠ q →
        p ∈ Pipeline.traversal fs directory → q ∈ Pipeline.traversal fs directory →
        FS.isfile fs p = true → FS.isfile fs q = true →
        FS.getsize fs p = inr s → FS.getsize fs q = inr s →
        FS.open_rb fs p = inr c1 → FS.open_rb fs q = inr c2 →
        MD5.hexdigest c1 = MD5.hexdigest c2 →
        ∃ paths, (MD5.hexdigest c1, paths) ∈ groups ∧ p ∈ paths ∧ q ∈ paths).
Proof.
  eexists. split; [apply find_duplicates_returns|].
  split; [|split; [|split; [|split; [|split]]]].
  - intros p Hin Hfile. split.
    + intros (_ & Hf & _)%to_hash_size_buckets. congruence.
    + intros [h ps] [_ Hg]%elem_of_duplicate_groups Hp.
      eapply elem_of_hash_groups in Hp as [Hth _]; [|done].
      apply to_hash_size_buckets in Hth as (_ & Hf & _). congruence.
  - apply warnings_explained.
  - intros p e Hin Hfile Hsize. split.
    + unfold Pipeline.warnings. apply elem_of_app. left.
      apply list_elem_of_omap. exists p. split; [done|].
      unfold Pipeline.access_warning. by rewrite Hfile, Hsize.
    + intros [h ps] [_ Hg]%elem_of_duplicate_groups Hp.
      eapply elem_of_hash_groups in Hp as [Hth _]; [|done].
      apply to_hash_size_buckets in Hth as (_ & _ & s & Hs & _). congruence.
  - intros p e Hin Hopen. split.
    + unfold Pipeline.warnings. apply elem_of_app. right.
      apply list_elem_of_omap. exists p. split; [done|].
      unfold Pipeline.hash_warning. by rewrite Hopen.
    + intros [h ps] [_ Hg]%elem_of_duplicate_groups Hp.
      eapply elem_of_hash_groups in Hp as [_ (c & Hc & _)]; [|done]. congruence.
  - intros [h ps] p Hg Hp. by apply (group_members Hashlib.md5 fs directory h ps).
  - intros p q s c1 c2 Hne Hp Hq Hfp Hfq Hsp Hsq Hop Hoq Hdig.
    set (kv1 := omap (Pipeline.sized fs) (Pipeline.traversal fs directory)).
    assert (∀ x, x ∈ Pipeline.traversal fs directory → FS.isfile fs x = true →
                 FS.getsize fs x = inr s → (s, x) ∈ kv1) as Hkv1.
    { intros x Hx Hfx Hsx. apply list_elem_of_omap. exists x. split; [done|].
      unfold Pipeline.sized. by rewrite Hfx, Hsx. }
    assert (∀ x, x ∈ Pipeline.traversal fs directory → FS.isfile fs x = true →
                 FS.getsize fs x = inr s →
                 x ∈ Pipeline.to_hash (Pipeline.size_buckets fs directory)) as Hth.
    { intros x Hx Hfx Hsx. apply elem_of_to_hash.
      exists s, (Pipeline.values s kv1). split_and!.
      - apply elem_of_group_by. split; [done|].
        apply list_elem_of_fmap. exists (s, p). split; [done|]. by apply Hkv1.
      - apply (two_members_length _ p q); [done|by apply elem_of_values, Hkv1..].
      - by apply elem_of_values, Hkv1. }
    set (kv2 := omap (Pipeline.hashed Hashlib.md5 fs)
                  (Pipeline.to_hash (Pipeline.size_buckets fs directory))).
    assert ((MD5.hexdigest c1, p) ∈ kv2) as Hp2.
    { apply list_elem_of_omap. exists p. split; [by apply Hth|].
      unfold Pipeline.hashed. by rewrite Hop. }
    assert ((MD5.hexdigest c1, q) ∈ kv2) as Hq2.
    { apply list_elem_of_omap. exists q. split; [by apply Hth|].
      unfold Pipeline.hashed. rewrite Hoq. unfold Pipeline.digest_of. simpl.
      by rewrite Hdig. }
    exists (Pipeline.values (MD5.hexdigest c1) kv2). split_and!.
    + apply elem_of_duplicate_groups. split.
      * apply (two_members_length _ p q); [done|by apply elem_of_values..].
      * apply elem_of_group_by. split; [done|].
        apply list_elem_of_fmap. by exists (MD5.hexdigest c1, p).
    + by apply elem_of_values.
    + by apply elem_of_values.
Qed.

(** C8: in the tree with [a.txt] and [b.txt] holding "hello" and [c.txt]
    holding "world", whatever the order the three files are listed in,
    [find_duplicates] returns exactly one group, its members are [a.txt] and
    [b.txt], and [c.txt] is not in the output. *)
Theorem C8_hello_world_scenario :
  Forall (λ entries,
            ∃ paths,
              (Script.find_duplicates (FS.Filesystem "album" (FS.Dir entries))
                 "album" Eff.io0).1
                = inr [("5d41402abc4b2a76b9719d911017c592"%string, paths)] ∧
              paths ≡ₚ ["album/a.txt"; "album/b.txt"]%string ∧
              "album/c.txt"%string ∉ paths)
         (permutations Props.scenario_entries).
Proof.
  let l := eval vm_compute in (permutations Props.scenario_entries) in
  change (permutations Props.scenario_entries) with l.
  repeat lazymatch goal with
         | |- Forall _ (_ :: _) => apply Forall_cons_2
         | |- Forall _ [] => apply Forall_nil_2
         end;
    (eexists; split; [vm_compute; reflexivity|]; split;
     [first [reflexivity | apply perm_swap]
     |rewrite !elem_of_cons, elem_of_nil; by intros [|[|]]]).
Qed.

(** C9, as stated, fails: a block size of 2^64 is greater than 0, and
    [f.read] refuses it with an [OverflowError], which [hash_file] lets
    through. *)
Lemma C9_block_size_too_large :
  FS.open_rb Props.scenario "album/c.txt" = inr (list_byte_of_string "world") ∧
  (Script.hash_file Hashlib.md5 Props.scenario "album/c.txt" (2 ^ 64) Eff.io0).1
    = inl (FS.OverflowError "cannot fit 'int' into an index-sized integer").
Proof. split; vm_compute; reflexivity. Qed.

(** C9 (amended): for every file content and every block size greater than
    0 that a read can allocate (at most 2^63 - 34 bytes, and within the
    memory of the run), [hash_file] returns the MD5 digest of the whole
    content, whatever the block size; for a larger block size the first
    [read] raises [OverflowError] or [MemoryError], and so does
    [hash_file]. *)
Theorem C9_hash_file_block_size
    (fs : FS.filesystem) (filepath : string) (content : list byte)
    (block_size : Z) (w : Eff.io) :
  FS.open_rb fs filepath = inr content →
  (0 < block_size)%Z →
  ((block_size ≤ FS.read_limit fs)%Z →
   (Script.hash_file Hashlib.md5 fs filepath block_size w).1
     = inr (MD5.hexdigest content)) ∧
  ((FS.read_limit fs < block_size)%Z →
   ∃ e, (Script.hash_file Hashlib.md5 fs filepath block_size w).1 = inl e ∧
        (e = FS.MemoryError ∨ ∃ m, e = FS.OverflowError m)).
Proof.
  intros Hopen Hpos. split.
  - intros Hmax. rewrite hash_file_run by done. by rewrite Hopen.
  - intros Hover. pose proof (read_limit_bounds fs) as Hlim. unfold FS.max_bytes in Hlim.
    unfold Script.hash_file, Eff.bind, Eff.note_hash_call, Eff.lift.
    rewrite Hopen. cbn [fst snd]. unfold FS.read, FS.max_bytes.
    assert ((block_size <? -1) = false)%Z as -> by lia.
    assert ((block_size =? -1) = false)%Z as -> by lia.
    destruct (2 ^ 63 <=? block_size)%Z; [eauto|].
    destruct (2 ^ 63 - 34 <? block_size)%Z; [eauto|].
    assert ((FS.read_limit fs <? block_size) = true)%Z as -> by lia.
    eauto.
Qed.

Lemma C9_hash_file_block_size_witness :
  (Script.hash_file Hashlib.md5 Props.scenario "album/c.txt" 2 Eff.io0).1
    = inr (MD5.hexdigest (list_byte_of_string "world"))
  ∧ ∃ e, (Script.hash_file Hashlib.md5 Props.scenario "album/c.txt" (2 ^ 63 - 1) Eff.io0).1
           = inl e ∧
         (e = FS.MemoryError ∨ ∃ m, e = FS.OverflowError m).
Proof.
  split.
  - apply (C9_hash_file_block_size Props.scenario "album/c.txt"
             (list_byte_of_string "world") 2 Eff.io0).
    + reflexivity.
    + lia.
    + vm_compute. discriminate.
  - apply (C9_hash_file_block_size Props.scenario "album/c.txt"
             (list_byte_of_string "world") (2 ^ 63 - 1) Eff.io0).
    + reflexivity.
    + lia.
    + vm_compute. reflexivity.
Defined.

(** C10: when the traversal yields every file path at most once, the groups
    [find_duplicates] returns are pairwise disjoint and no group lists a
    path twice. *)
Theorem C10_groups_disjoint
    (fs : FS.filesystem) (directory : string) (w : Eff.io) :
  NoDup (Pipeline.traversal fs directory) →
  ∃ groups, (Script.find_duplicates fs directory w).1 = inr groups ∧
    (∀ g, g ∈ groups → NoDup g.2) ∧
    (∀ i j g1 g2 p, groups !! i = Some g1 → groups !! j = Some g2 →
                    p ∈ g1.2 → p ∈ g2.2 → i = j).
Proof.
  intros Hnd. rewrite find_duplicates_returns. eexists. split; [done|].
  pose proof (submseteq_NoDup_1 _ _
                (duplicate_groups_submseteq Hashlib.md5 fs directory) Hnd) as Hall.
  split.
  - intros g Hg. by eapply (NoDup_flat_map_member snd).
  - intros i j g1 g2 p Hi Hj Hp1 Hp2. by eapply (NoDup_flat_map_disjoint snd).
Qed.

Lemma C10_groups_disjoint_witness :
  ∃ groups, (Script.find_duplicates Props.scenario "album" Eff.io0).1 = inr groups ∧
    (∀ g, g ∈ groups → NoDup g.2) ∧
    (∀ i j g1 g2 p, groups !! i = Some g1 → groups !! j = Some g2 →
                    p ∈ g1.2 → p ∈ g2.2 → i = j).
Proof.
  apply (C10_groups_disjoint Props.scenario "album" Eff.io0).
  apply (bool_decide_unpack _). vm_compute. exact I.
Defined.

(** * Further properties of the script *)

(** ** [hash_file] at the other block sizes *)
Section block_sizes.
Import FS Eff Script.

Lemma read_loop_nothing (fs : filesystem) (block_size : Z)
    (hasher : Hashlib.hasher) (f : list byte) :
  read_loop fs block_size hasher [] f = inr hasher.
Proof. by simp read_loop. Qed.

Lemma read_all_at_end (fs : filesystem) : FS.read fs [] (-1) = inr ([], []).
Proof.
  pose proof (read_limit_bounds fs) as Hlim. unfold FS.read.
  change (-1 <? -1)%Z with false. change (-1 =? -1)%Z with true. cbn iota.
  change (Z.of_nat (length (@nil byte))) with 0%Z.
  by assert ((0 <=? read_limit fs) = true)%Z as -> by lia.
Qed.

Lemma read_loop_all (fs : filesystem) (hasher : Hashlib.hasher) (buf : list byte) :
  read_loop fs (-1) hasher buf [] =
    inr (Hashlib.Hasher (Hashlib.algorithm hasher) (Hashlib.fed hasher ++ buf)).
Proof.
  funelim (read_loop fs (-1) hasher buf []).
  - destruct hasher. simpl. by rewrite app_nil_r.
  - match goal with Hr : FS.read _ _ _ = _ |- _ => pose proof Hr as Hraised end.
    rewrite read_all_at_end in Hraised. discriminate Hraised.
  - match goal with Hr : FS.read _ _ _ = _ |- _ => pose proof Hr as Hchunk end.
    rewrite read_all_at_end in Hchunk. injection Hchunk as <- <-.
    by rewrite read_loop_nothing.
Qed.
End block_sizes.

(** X1: with [block_size = 0] the first [read] returns nothing, the loop
    body never runs, and [hash_file] returns the MD5 digest of the empty
    content whatever the file holds. *)
Theorem X1_hash_file_block_size_zero
    (fs : FS.filesystem) (filepath : string) (content : list byte) (w : Eff.io) :
  FS.open_rb fs filepath = inr content →
  (Script.hash_file Hashlib.md5 fs filepath 0 w).1
    = inr "d41d8cd98f00b204e9800998ecf8427e"%string.
Proof.
  intros Hopen. unfold Script.hash_file, Eff.bind, Eff.note_hash_call, Eff.lift.
  rewrite Hopen. cbn [fst snd].
  rewrite read_within_limit by (pose proof (read_limit_bounds fs); lia).
  change (Z.to_nat 0) with 0%nat. rewrite take_0, drop_0.
  rewrite read_loop_nothing. unfold Eff.ret. cbn [fst]. f_equal.
Qed.

Lemma X1_hash_file_block_size_zero_witness :
  (Script.hash_file Hashlib.md5 Props.scenario "album/c.txt" 0 Eff.io0).1
    = inr "d41d8cd98f00b204e9800998ecf8427e"%string.
Proof.
  apply (X1_hash_file_block_size_zero Props.scenario "album/c.txt"
           (list_byte_of_string "world") Eff.io0).
  reflexivity.
Defined.

(** X2: of the negative block sizes only [-1] is accepted: the first
    [read] then returns the whole file (when it fits in memory) and
    [hash_file] returns the MD5 digest of the whole content; for any smaller
    block size [read] raises [ValueError], and so does [hash_file]. *)
Theorem X2_hash_file_negative_block_size
    (fs : FS.filesystem) (filepath : string) (content : list byte)
    (block_size : Z) (w : Eff.io) :
  FS.open_rb fs filepath = inr content →
  (block_size < 0)%Z →
  (Script.hash_file Hashlib.md5 fs filepath block_size w).1 =
    if bool_decide (block_size = -1) then
      if bool_decide (Z.of_nat (length content) ≤ FS.read_limit fs)%Z
      then inr (MD5.hexdigest content)
      else inl FS.MemoryError
    else inl (FS.ValueError "read length must be non-negative or -1").
Proof.
  intros Hopen Hneg. unfold Script.hash_file, Eff.bind, Eff.note_hash_call, Eff.lift.
  rewrite Hopen. cbn [fst snd]. unfold FS.read.
  case_bool_decide as Hone.
  - subst block_size. change (-1 <? -1)%Z with false. change (-1 =? -1)%Z with true.
    cbn iota. case_bool_decide as Hfit.
    + assert ((Z.of_nat (length content) <=? FS.read_limit fs) = true)%Z as -> by lia.
      rewrite read_loop_all. reflexivity.
    + by assert ((Z.of_nat (length content) <=? FS.read_limit fs) = false)%Z as -> by lia.
  - by assert ((block_size <? -1) = true)%Z as -> by lia.
Qed.

Lemma X2_hash_file_negative_block_size_witness :
  (Script.hash_file Hashlib.md5 Props.scenario "album/c.txt" (-1) Eff.io0).1
    = inr (MD5.hexdigest (list_byte_of_string "world"))
  ∧ (Script.hash_file Hashlib.md5 Props.scenario "album/c.txt" (-2) Eff.io0).1
    = inl (FS.ValueError "read length must be non-negative or -1").
Proof.
  split.
  - apply (X2_hash_file_negative_block_size Props.scenario "album/c.txt"
             (list_byte_of_string "world") (-1) Eff.io0); [reflexivity|lia].
  - apply (X2_hash_file_negative_block_size Props.scenario "album/c.txt"
             (list_byte_of_string "world") (-2) Eff.io0); [reflexivity|lia].
Defined.

(** ** The first pass files every accessible file once *)
Section first_pass_facts.
Import FS Eff OrderedDict Script Pipeline Report.
Variable fs : filesystem.

Lemma sized_statable p :
  sized fs p = if statable fs p then
                 match getsize fs p with inr s => Some (s, p) | inl _ => None end
               else None.
Proof.
  unfold sized, statable. destruct (isfile fs p); [|done].
  by destruct (getsize fs p).
Qed.

Lemma omap_sized_paths (l : list string) :
  (omap (sized fs) l).*2 = filter (λ p, statable fs p) l.
Proof.
  induction l as [|p l IH]; [done|]. csimpl. rewrite sized_statable.
  destruct (statable fs p) eqn:Hst.
  - rewrite filter_cons_True by (rewrite Hst; simpl; tauto).
    unfold statable in Hst. apply andb_true_iff in Hst as [_ Hsz].
    destruct (getsize fs p); [done|]. csimpl. by rewrite IH.
  - rewrite filter_cons_False by (rewrite Hst; simpl; tauto). done.
Qed.

Lemma values_sized (s : Z) (l : list string) :
  values s (omap (sized fs) l) =
    filter (λ p, getsize fs p = inr s) (filter (λ p, statable fs p) l).
Proof.
  unfold values. induction l as [|p l IH]; [done|]. csimpl.
  rewrite sized_statable. destruct (statable fs p) eqn:Hst.
  - rewrite (filter_cons_True (λ p, statable fs p)) by (rewrite Hst; simpl; tauto).
    unfold statable in Hst. apply andb_true_iff in Hst as [_ Hsz].
    destruct (getsize fs p) as [e|s'] eqn:Hs'; [done|].
    destruct (decide (s' = s)) as [->|Hne].
    + rewrite filter_cons_True by done.
      rewrite (filter_cons_True (λ p, getsize fs p = inr s)) by done.
      csimpl. by rewrite IH.
    + rewrite filter_cons_False by done.
      rewrite (filter_cons_False (λ p, getsize fs p = inr s)) by congruence.
      done.
  - rewrite (filter_cons_False (λ p, statable fs p)) by (rewrite Hst; simpl; tauto). done.
Qed.

Lemma values_at_most_one {K V} `{EqDecision K} (k : K) (kvs : list (K * V)) :
  NoDup kvs.*1 → (length (values k kvs) ≤ 1)%nat.
Proof.
  unfold values. induction kvs as [|[k' v] kvs IH]; csimpl; [lia|].
  rewrite NoDup_cons. intros [Hk' Hnd]. rewrite filter_cons. simpl.
  destruct (decide (k' = k)) as [->|Hne]; [|by auto].
  csimpl. apply values_nil_iff in Hk'. unfold values in Hk'. rewrite Hk'. simpl. lia.
Qed.

Lemma to_hash_nil (d : dict Z string) :
  (∀ s ps, (s, ps) ∈ d → (length ps ≤ 1)%nat) → to_hash d = [].
Proof.
  intros Hd. unfold to_hash. induction d as [|[s ps] d IH]; [done|]. simpl.
  rewrite bool_decide_eq_false_2.
  - apply IH. intros s' ps' Hin. apply (Hd s'). by right.
  - specialize (Hd s ps ltac:(by left)). lia.
Qed.
End first_pass_facts.

(** X3: the first pass loses and invents nothing: its buckets have distinct
    sizes as keys, none is empty, and the bucket of size [s] lists, in
    traversal order, exactly the regular files of the traversal whose
    [getsize] returned [s]; together the buckets are the files whose size
    could be obtained. *)
Theorem X3_first_pass_partitions
    (fs : FS.filesystem) (directory : string) (w : Eff.io) :
  ∃ hashes_by_size w',
    Script.first_pass fs directory w = (inr hashes_by_size, w') ∧
    NoDup hashes_by_size.*1 ∧
    (∀ s paths, (s, paths) ∈ hashes_by_size →
        paths ≠ [] ∧
        paths = filter (λ p, FS.getsize fs p = inr s)
                  (filter (λ p, Report.statable fs p) (Pipeline.traversal fs directory))) ∧
    flat_map snd hashes_by_size
      ≡ₚ filter (λ p, Report.statable fs p) (Pipeline.traversal fs directory).
Proof.
  eexists _, _. split; [apply first_pass_run|]. split; [|split].
  - apply (NoDup_keys_group_by (K := Z)).
  - intros s paths [-> Hin]%elem_of_group_by. split.
    + intros Hnil. by apply values_nil_iff in Hnil.
    + apply values_sized.
  - unfold Pipeline.size_buckets. by rewrite group_by_flat, omap_sized_paths.
Qed.

(** X4: when no two files of the traversal have the same size,
    [hash_file] is not called at all and the result is the empty mapping;
    only the warnings of the first pass are printed. An empty directory is
    the simplest case. *)
Theorem X4_distinct_sizes_nothing_hashed
    (fs : FS.filesystem) (directory : string) (w : Eff.io) :
  NoDup (Report.sizes fs directory) →
  Script.find_duplicates fs directory w =
    (inr [],
     Pipeline.log (omap (Pipeline.access_warning fs) (Pipeline.traversal fs directory))
       [] w).
Proof.
  intros Hnd. rewrite find_duplicates_returns.
  assert (Pipeline.to_hash (Pipeline.size_buckets fs directory) = []) as Hth.
  { apply to_hash_nil. intros s ps [-> _]%elem_of_group_by.
    by apply values_at_most_one. }
  unfold Pipeline.duplicate_groups, Pipeline.hash_groups, Pipeline.warnings.
  rewrite Hth. csimpl. by rewrite app_nil_r.
Qed.

Lemma X4_distinct_sizes_nothing_hashed_witness :
  Script.find_duplicates Report.all_different "album" Eff.io0 =
    (inr [],
     Pipeline.log
       (omap (Pipeline.access_warning Report.all_different)
          (Pipeline.traversal Report.all_different "album"))
       [] Eff.io0).
Proof.
  apply (X4_distinct_sizes_nothing_hashed Report.all_different "album" Eff.io0).
  apply (bool_decide_unpack _). vm_compute. exact I.
Defined.

(** ** What is hashed, what is printed, what is found *)
Section second_pass_facts.
Import FS Eff OrderedDict Script Pipeline Report.
Variable new_hasher : Hashlib.hasher.
Variable fs : filesystem.

Lemma values_sublist {K V} `{EqDecision K} (k : K) (kvs : list (K * V)) :
  values k kvs `sublist_of` kvs.*2.
Proof.
  unfold values. induction kvs as [|[k' v] kvs IH]; [done|]. csimpl.
  rewrite filter_cons. simpl. destruct (decide (k' = k)); csimpl.
  - by apply sublist_skip.
  - by apply sublist_cons.
Qed.

Lemma hash_group_sublist directory h ps :
  (h, ps) ∈ hash_groups new_hasher fs directory →
  ps `sublist_of` to_hash (size_buckets fs directory).
Proof.
  intros [-> _]%elem_of_group_by. etrans; [apply values_sublist|].
  apply omap_tagged_sublist. intros x [h' q] (-> & _)%hashed_Some. done.
Qed.

Lemma to_hash_statable directory :
  to_hash (size_buckets fs directory)
    ⊆+ filter (λ p, statable fs p) (traversal fs directory).
Proof.
  rewrite to_hash_submseteq. unfold size_buckets.
  by rewrite group_by_flat, omap_sized_paths.
Qed.

Lemma omap_none {A B} (f : A → option B) (l : list A) :
  (∀ x, x ∈ l → f x = None) → omap f l = [].
Proof.
  induction l as [|x l IH]; intros Hf; [done|]. csimpl.
  rewrite (Hf x) by left. apply IH. intros y Hy. apply Hf. by right.
Qed.

(** All the copies of a content that report one size are found together. *)
Lemma copies_grouped directory (c : list byte) (size : N) p q :
  p ≠ q →
  p ∈ traversal fs directory → q ∈ traversal fs directory →
  resolve fs p = Some (Reg (File c size None None)) →
  resolve fs q = Some (Reg (File c size None None)) →
  ∃ paths, (digest_of new_hasher c, paths) ∈ duplicate_groups new_hasher fs directory ∧
    ∀ x, x ∈ traversal fs directory →
         resolve fs x = Some (Reg (File c size None None)) → x ∈ paths.
Proof.
  intros Hne Hp Hq Hrp Hrq.
  set (s := Z.of_N size).
  set (kv1 := omap (sized fs) (traversal fs directory)).
  assert (∀ x, x ∈ traversal fs directory →
               resolve fs x = Some (Reg (File c size None None)) → (s, x) ∈ kv1) as Hkv1.
  { intros x Hx Hrx. apply list_elem_of_omap. exists x. split; [done|].
    unfold sized, isfile, getsize. by rewrite Hrx. }
  assert (∀ x, x ∈ traversal fs directory →
               resolve fs x = Some (Reg (File c size None None)) →
               x ∈ to_hash (size_buckets fs directory)) as Hth.
  { intros x Hx Hrx. apply elem_of_to_hash.
    exists s, (values s kv1). split_and!.
    - apply elem_of_group_by. split; [done|].
      apply list_elem_of_fmap. exists (s, p). split; [done|]. by apply Hkv1.
    - apply (two_members_length _ p q); [done|by apply elem_of_values, Hkv1..].
    - by apply elem_of_values, Hkv1. }
  set (kv2 := omap (hashed new_hasher fs) (to_hash (size_buckets fs directory))).
  assert (∀ x, x ∈ traversal fs directory →
               resolve fs x = Some (Reg (File c size None None)) →
               (digest_of new_hasher c, x) ∈ kv2) as Hkv2.
  { intros x Hx Hrx. apply list_elem_of_omap. exists x. split; [by apply Hth|].
    unfold hashed, open_rb. by rewrite Hrx. }
  exists (values (digest_of new_hasher c) kv2). split.
  - apply elem_of_duplicate_groups. split.
    + apply (two_members_length _ p q); [done|by apply elem_of_values, Hkv2..].
    + apply elem_of_group_by. split; [done|].
      apply list_elem_of_fmap. exists (digest_of new_hasher c, p).
      split; [done|]. by apply Hkv2.
  - intros x Hx Hrx. by apply elem_of_values, Hkv2.
Qed.
End second_pass_facts.

(** X5: [hash_file] is called at most once for each occurrence of a file in
    the traversal, and only on regular files whose size was obtained; the
    paths of every returned group are listed in the order they were
    hashed. *)
Theorem X5_hash_calls_bounded
    (fs : FS.filesystem) (directory : string) (w : Eff.io) :
  ∃ groups w' calls,
    Script.find_duplicates fs directory w = (inr groups, w') ∧
    Eff.hash_calls w' = Eff.hash_calls w ++ calls ∧
    calls ⊆+ filter (λ p, Report.statable fs p) (Pipeline.traversal fs directory) ∧
    (length calls ≤ length (Pipeline.traversal fs directory))%nat ∧
    (∀ g, g ∈ groups → g.2 `sublist_of` calls).
Proof.
  eexists _, _, _. split; [apply find_duplicates_returns|].
  split; [done|]. split; [apply to_hash_statable|]. split.
  - etrans; [apply submseteq_length, to_hash_statable|]. apply length_filter.
  - intros [h ps] [_ Hg]%elem_of_duplicate_groups. by eapply hash_group_sublist.
Qed.

(** X6: [find_duplicates] writes no file, and every line it prints is the
    warning of an entry that failed: a regular file of the traversal whose
    [getsize] raised, or whose [open] raised. When nothing fails it prints
    nothing. *)
Theorem X6_only_warnings_printed
    (fs : FS.filesystem) (directory : string) (w : Eff.io) :
  ∃ groups lines calls,
    Script.find_duplicates fs directory w
      = (inr groups,
         Eff.IO (Eff.stdout w ++ lines) (Eff.written w) (Eff.hash_calls w ++ calls)) ∧
    (∀ line, line ∈ lines →
       ∃ p e, p ∈ Pipeline.traversal fs directory ∧ FS.isfile fs p = true ∧
              ((line = Script.warn_access p e ∧ FS.getsize fs p = inl e) ∨
               (line = Script.warn_hash p e ∧ FS.open_rb fs p = inl e))) ∧
    ((∀ p, p ∈ Pipeline.traversal fs directory → FS.isfile fs p = true →
           Report.statable fs p = true ∧ Report.readable fs p = true) →
     lines = []).
Proof.
  eexists _, _, _. split; [apply find_duplicates_returns|]. split.
  - apply warnings_explained.
  - intros Hok. unfold Pipeline.warnings. rewrite !omap_none; [done|..].
    + intros p (Hin & Hf & _)%to_hash_size_buckets.
      destruct (Hok p Hin Hf) as [_ Hr]. unfold Report.readable in Hr.
      unfold Pipeline.hash_warning. by destruct (FS.open_rb fs p).
    + intros p Hin. unfold Pipeline.access_warning.
      destruct (FS.isfile fs p) eqn:Hf; [|done].
      destruct (Hok p Hin Hf) as [Hs _]. unfold Report.statable in Hs.
      rewrite Hf in Hs. by destruct (FS.getsize fs p).
Qed.

(** X7: no false negatives among files of one size: when two different
    paths of the traversal hold the same bytes, report the same size and
    neither fails, the result has a group keyed by the MD5 digest of those
    bytes, and that group lists every such fault-free path of the
    traversal. *)
Theorem X7_copies_reported_together
    (fs : FS.filesystem) (directory : string) (w : Eff.io)
    (content : list byte) (size : N) (p q : string) :
  p ≠ q →
  p ∈ Pipeline.traversal fs directory → q ∈ Pipeline.traversal fs directory →
  FS.resolve fs p = Some (FS.Reg (FS.File content size None None)) →
  FS.resolve fs q = Some (FS.Reg (FS.File content size None None)) →
  ∃ groups paths,
    (Script.find_duplicates fs directory w).1 = inr groups ∧
    (MD5.hexdigest content, paths) ∈ groups ∧
    ∀ x, x ∈ Pipeline.traversal fs directory →
         FS.resolve fs x = Some (FS.Reg (FS.File content size None None)) →
         x ∈ paths.
Proof.
  intros Hne Hp Hq Hrp Hrq. rewrite find_duplicates_returns.
  destruct (copies_grouped Hashlib.md5 fs directory content size p q)
    as (paths & Hg & Hall); [done..|].
  eexists _, paths. split; [reflexivity|]. by split.
Qed.

Lemma X7_copies_reported_together_witness :
  ∃ groups paths,
    (Script.find_duplicates Props.faulty "album" Eff.io0).1 = inr groups ∧
    (MD5.hexdigest (list_byte_of_string "hello"), paths) ∈ groups ∧
    ∀ x, x ∈ Pipeline.traversal Props.faulty "album" →
         FS.resolve Props.faulty x
           = Some (FS.Reg (FS.File (list_byte_of_string "hello") 5 None None)) →
         x ∈ paths.
Proof.
  apply (X7_copies_reported_together Props.faulty "album" Eff.io0
           (list_byte_of_string "hello") 5 "album/a.txt" "album/sub/b.txt").
  - discriminate.
  - apply (bool_decide_unpack _). vm_compute. exact I.
  - apply (bool_decide_unpack _). vm_compute. exact I.
  - reflexivity.
  - reflexivity.
Defined.

(** ** The keys of the result *)
Section key_facts.
Import FS Eff OrderedDict Script Pipeline Report.

Lemma le_bytes_length n x : length (MD5.le_bytes n x) = n.
Proof. revert x. induction n as [|n IH]; intros x; simpl; [done|]. by rewrite IH. Qed.

Lemma hex_digit_lower d : MD5.hex_digit d ∈ lower_hex.
Proof.
  apply list_elem_of_In.
  change (In (nth (Z.to_nat d) lower_hex "0"%char) lower_hex).
  destruct (nth_in_or_default (Z.to_nat d) lower_hex "0"%char) as [Hin|Heq].
  - exact Hin.
  - rewrite Heq. by left.
Qed.

Lemma hex_bytes_shape bs :
  String.length (MD5.hex_bytes bs) = (2 * length bs)%nat ∧
  Forall (λ ch, ch ∈ lower_hex) (list_ascii_of_string (MD5.hex_bytes bs)).
Proof.
  induction bs as [|b bs [IHl IHc]]; simpl; [by split|]. split.
  - rewrite IHl. lia.
  - repeat (apply Forall_cons_2; [apply hex_digit_lower|]). done.
Qed.

Lemma hexdigest_shape msg :
  String.length (MD5.hexdigest msg) = 32%nat ∧
  Forall (λ ch, ch ∈ lower_hex) (list_ascii_of_string (MD5.hexdigest msg)).
Proof.
  unfold MD5.hexdigest. generalize (MD5.digest msg). intros x.
  destruct (hex_bytes_shape (MD5.le_bytes 16 x)) as [Hl Hc].
  rewrite le_bytes_length in Hl. done.
Qed.
End key_facts.

(** X8: the mapping returned has no hash key twice, and every key is a
    string of 32 lower-case hexadecimal digits. *)
Theorem X8_keys_distinct_hex
    (fs : FS.filesystem) (directory : string) (w : Eff.io) :
  ∃ groups,
    (Script.find_duplicates fs directory w).1 = inr groups ∧
    NoDup groups.*1 ∧
    Forall (λ g, String.length g.1 = 32%nat ∧
                 Forall (λ ch, ch ∈ Report.lower_hex) (list_ascii_of_string g.1))
           groups.
Proof.
  rewrite find_duplicates_returns. eexists. split; [done|]. split.
  - apply NoDup_keys_duplicate_groups.
  - apply Forall_forall. intros [h ps] Hg.
    pose proof Hg as [Hlen _]%elem_of_duplicate_groups.
    destruct ps as [|p ps]; [simpl in Hlen; lia|].
    destruct (group_members Hashlib.md5 fs directory h (p :: ps) p Hg)
      as (_ & _ & c & s & _ & -> & _); [by left|].
    apply hexdigest_shape.
Qed.

(** ** [main] *)
Section main_facts.
Import FS Eff OrderedDict Script Pipeline Report.

Lemma append_assoc (a b c : string) : (a +:+ b) +:+ c = a +:+ (b +:+ c).
Proof.
  induction a as [|ch a IH]; [done|].
  change (String ch ((a +:+ b) +:+ c) = String ch (a +:+ (b +:+ c))).
  by rewrite IH.
Qed.

Lemma append_empty_r (a : string) : a +:+ "" = a.
Proof.
  induction a as [|ch a IH]; [done|].
  change (String ch (a +:+ "") = String ch a). by rewrite IH.
Qed.

(** The lines written to the file are the lines printed, each with its
    newline. *)
Lemma report_lines_newline (duplicate_files : dict string string) :
  report_lines duplicate_files nl
    = map (λ l, l +:+ nl) (report_lines duplicate_files "").
Proof.
  unfold report_lines.
  induction duplicate_files as [|[h ps] d IH]; [done|]. simpl.
  rewrite map_app, <- IH. f_equal.
  - by rewrite !append_assoc.
  - f_equal. rewrite !List.map_map. apply map_ext. intros path.
    by rewrite !append_assoc.
Qed.

Lemma print_lines (lines : list string) (w : io) :
  for_each lines (fun l _ => print l) tt w = (inr tt, log lines [] w).
Proof.
  revert w. induction lines as [|l lines IH]; intros w; simpl.
  - by rewrite log_nil.
  - unfold bind, print at 1. rewrite IH. unfold log. simpl.
    by rewrite app_nil_r, <- (assoc_L (++)).
Qed.

Lemma main_on_run (fs : filesystem) (target_directory : string) (w : io) :
  isdir fs target_directory = true →
  main_on fs target_directory w =
    let duplicate_files := duplicate_groups Hashlib.md5 fs target_directory in
    let calls := to_hash (size_buckets fs target_directory) in
    let scanned := [scanning_line target_directory] ++ warnings fs target_directory in
    match duplicate_files with
    | [] =>
        (inr tt,
         IO (stdout w ++ scanned ++ ["No duplicate files found based on content."])
            (written w) (hash_calls w ++ calls))
    | _ =>
        match cwd_fault fs with
        | None =>
            (inr tt,
             IO (stdout w ++ scanned ++ console_report duplicate_files ++ [saved_line])
                (written w ++
                   [(output_filename,
                     ("--- Duplicate Files Found ---" +:+ nl)
                       :: map (λ l, l +:+ nl) (report_lines duplicate_files ""))])
                (hash_calls w ++ calls))
        | Some e =>
            (inl (OSError e),
             IO (stdout w ++ scanned ++ console_report duplicate_files)
                (written w) (hash_calls w ++ calls))
        end
    end.
Proof.
  intros Hdir. unfold main_on. rewrite Hdir. cbn [negb].
  unfold bind at 1. unfold print at 1. cbn iota beta.
  unfold bind at 1. rewrite find_duplicates_returns. cbn iota beta zeta.
  destruct (duplicate_groups Hashlib.md5 fs target_directory) as [|g d] eqn:Hd.
  - unfold print, log, scanning_line. cbn [stdout written hash_calls].
    by rewrite <- !(assoc_L (++)).
  - generalize (g :: d). intros groups.
    unfold bind at 1. unfold print at 1. cbn iota beta.
    unfold bind at 1. rewrite print_lines. cbn iota beta.
    unfold bind at 1. unfold print at 1. cbn iota beta.
    unfold bind at 1. unfold print at 1. cbn iota beta.
    unfold bind, write_file, open_w, print, log. cbn [stdout written hash_calls].
    rewrite report_lines_newline.
    unfold console_report, saved_line, extra_copies, scanning_line.
    destruct (cwd_fault fs) as [e|]; cbn [stdout written hash_calls];
      rewrite ?app_nil_r, <- !(assoc_L (++)); reflexivity.
Qed.

Lemma extra_copies_count (d : dict string string) :
  Forall (λ g, (2 ≤ length g.2)%nat) d →
  (extra_copies d + length d = length (flat_map snd d))%nat ∧
  (length d ≤ extra_copies d)%nat.
Proof.
  induction 1 as [|[h ps] d Hps _ [IH1 IH2]]; simpl; [done|].
  simpl in Hps. rewrite length_app. fold (extra_copies d). lia.
Qed.
End main_facts.

(** X9: when the directory exists and the scan finds no duplicates, [main]
    prints the scanning line, the warnings of the scan and
    "No duplicate files found based on content.", and writes no file. *)
Theorem X9_main_without_duplicates
    (fs : FS.filesystem) (target_directory : string) (w : Eff.io) :
  FS.isdir fs target_directory = true →
  (Script.find_duplicates fs target_directory w).1 = inr [] →
  ∃ calls,
    Script.main_on fs target_directory w =
      (inr tt,
       Eff.IO (Eff.stdout w ++ [Report.scanning_line target_directory]
                 ++ Pipeline.warnings fs target_directory
                 ++ ["No duplicate files found based on content."%string])
              (Eff.written w)
              (Eff.hash_calls w ++ calls)).
Proof.
  intros Hdir Hnone. rewrite find_duplicates_returns in Hnone.
  cbn [fst] in Hnone. injection Hnone as Hnone.
  eexists. rewrite main_on_run by done. cbv zeta. rewrite Hnone.
  by rewrite <- !(assoc_L (++)).
Qed.

Lemma X9_main_without_duplicates_witness :
  ∃ calls,
    Script.main_on Report.all_different "album" Eff.io0 =
      (inr tt,
       Eff.IO (Eff.stdout Eff.io0 ++ [Report.scanning_line "album"]
                 ++ Pipeline.warnings Report.all_different "album"
                 ++ ["No duplicate files found based on content."%string])
              (Eff.written Eff.io0)
              (Eff.hash_calls Eff.io0 ++ calls)).
Proof.
  apply (X9_main_without_duplicates Report.all_different "album" Eff.io0).
  - reflexivity.
  - vm_compute. reflexivity.
Defined.



(** X11: for the mapping [find_duplicates] returns, the total of extra
    copies that [main] computes ([len(file_paths) - 1] summed over the
    groups) is the number of paths listed minus the number of groups, and is
    at least the number of groups. *)
Theorem X11_extra_copies_count
    (fs : FS.filesystem) (directory : string) (w : Eff.io) :
  ∃ groups,
    (Script.find_duplicates fs directory w).1 = inr groups ∧
    (Report.extra_copies groups + length groups = length (flat_map snd groups))%nat ∧
    (length groups ≤ Report.extra_copies groups)%nat.
Proof.
  rewrite find_duplicates_returns. eexists. split; [done|].
  apply extra_copies_count, Forall_forall. intros [h ps] Hg.
  apply elem_of_duplicate_groups in Hg as [Hlen _]. simpl. lia.
Qed.

(** X12: no false positives short of an MD5 collision: when MD5 tells the
    contents of the files of the tree apart, any two paths of one returned
    group hold the same bytes. *)
Theorem X12_group_members_same_bytes
    (fs : FS.filesystem) (directory : string) (w : Eff.io) :
  Report.no_collision fs directory →
  ∃ groups,
    (Script.find_duplicates fs directory w).1 = inr groups ∧
    Forall (λ g, ∀ p q, p ∈ g.2 → q ∈ g.2 →
                        ∃ c, FS.open_rb fs p = inr c ∧ FS.open_rb fs q = inr c)
           groups.
Proof.
  intros Hfree. rewrite find_duplicates_returns. eexists. split; [done|].
  apply Forall_forall. intros [h ps] Hg p q Hp Hq. simpl in Hp, Hq.
  destruct (group_members _ _ _ _ _ _ Hg Hp) as (Hpin & _ & c1 & s1 & Hc1 & Hh1 & _).
  destruct (group_members _ _ _ _ _ _ Hg Hq) as (Hqin & _ & c2 & s2 & Hc2 & Hh2 & _).
  exists c1. split; [done|]. rewrite Hc2. f_equal. symmetry.
  eapply Hfree; [exact Hpin|exact Hqin|done..|].
  unfold Pipeline.digest_of in Hh1, Hh2. simpl in Hh1, Hh2. congruence.
Qed.

Lemma X12_group_members_same_bytes_witness :
  ∃ groups,
    (Script.find_duplicates Props.scenario "album" Eff.io0).1 = inr groups ∧
    Forall (λ g, ∀ p q, p ∈ g.2 → q ∈ g.2 →
                   ∃ c, FS.open_rb Props.scenario p = inr c ∧
                        FS.open_rb Props.scenario q = inr c)
           groups.
Proof.
  apply (X12_group_members_same_bytes Props.scenario "album" Eff.io0).
  intros p q c1 c2 Hp Hq Hc1 Hc2 Hdig.
  change (Pipeline.traversal Props.scenario "album")
    with ["album/a.txt"; "album/b.txt"; "album/c.txt"]%string in Hp, Hq.
  rewrite !elem_of_cons, elem_of_nil in Hp, Hq.
  destruct Hp as [->|[->|[->|[]]]]; destruct Hq as [->|[->|[->|[]]]];
    vm_compute in Hc1, Hc2; injection Hc1 as <-; injection Hc2 as <-;
    first [reflexivity | vm_compute in Hdig; discriminate Hdig].
Defined.
